(** * Hashly: the client-side lookup engine of [src/app.js]

    A shallow embedding of the class [HashlyLookup]: the FNV-1a hash, the key
    validator and normaliser, the chunk locator, the chunk cache (a JavaScript
    [Map], whose iteration order is insertion order), the chunk scanner and the
    [lookup] orchestrator, followed by the properties proved about them. *)

From Stdlib Require Import ZArith List Bool Lia String Ascii QArith Qround.
From Stdlib Require Import DecimalString DecimalPos DecimalZ.
Import ListNotations.

Local Open Scope Z_scope.

(** ** JavaScript strings

    A JavaScript string is a sequence of UTF-16 code units; [charCodeAt]
    returns the code unit at an index.  Literals of the source are written
    with [js]. *)

Definition jsstring := list Z.

Definition js (s : string) : jsstring :=
  map (fun a => Z.of_nat (nat_of_ascii a)) (list_ascii_of_string s).

Arguments js s%_string.

Fixpoint str_eqb (s t : jsstring) : bool :=
  match s, t with
  | [], [] => true
  | c :: s', d :: t' => (c =? d) && str_eqb s' t'
  | _, _ => false
  end.

(** WhiteSpace and LineTerminator code points of ECMAScript, the characters
    [String.prototype.trim] removes.  All of them are single code units. *)
Definition isWhiteSpace (c : Z) : bool :=
  (c =? 9) || (c =? 10) || (c =? 11) || (c =? 12) || (c =? 13) || (c =? 32)
  || (c =? 160) || (c =? 5760) || ((8192 <=? c) && (c <=? 8202))
  || (c =? 8232) || (c =? 8233) || (c =? 8239) || (c =? 8287)
  || (c =? 12288) || (c =? 65279).

Fixpoint trimStart (s : jsstring) : jsstring :=
  match s with
  | [] => []
  | c :: r => if isWhiteSpace c then trimStart r else s
  end.

Definition trimEnd (s : jsstring) : jsstring := rev (trimStart (rev s)).

Definition trim (s : jsstring) : jsstring := trimEnd (trimStart s).

(** [s.indexOf(ch)] for a one-character needle: the first index, or -1. *)
Fixpoint indexOf (ch : Z) (s : jsstring) : Z :=
  match s with
  | [] => -1
  | c :: r =>
      if c =? ch then 0
      else let i := indexOf ch r in if i =? -1 then -1 else i + 1
  end.

(** [s.substring(a, b)]: both indices are clamped to [0, length] and swapped
    when out of order; [substring_from] is the one-argument form. *)
Definition clamp (s : jsstring) (i : Z) : nat :=
  Z.to_nat (Z.min (Z.max i 0) (Z.of_nat (List.length s))).

Definition substring (s : jsstring) (a b : Z) : jsstring :=
  let from := Nat.min (clamp s a) (clamp s b) in
  let to := Nat.max (clamp s a) (clamp s b) in
  skipn from (firstn to s).

Definition substring_from (s : jsstring) (a : Z) : jsstring :=
  substring s a (Z.of_nat (List.length s)).

(** [s.split(sep)] for a one-character separator. *)
Fixpoint split (sep : Z) (s : jsstring) : list jsstring :=
  match s with
  | [] => [[]]
  | c :: r =>
      if c =? sep then [] :: split sep r
      else match split sep r with
           | l :: ls => (c :: l) :: ls
           | [] => [[c]]
           end
  end.

(** [s.padStart(n, pad)] for a one-character pad. *)
Definition padStart (n : nat) (pad : Z) (s : jsstring) : jsstring :=
  repeat pad (n - List.length s) ++ s.

(** ** Numbers

    The numbers the engine computes with are integers, except that the
    remainder by zero is NaN. *)
Inductive number : Type :=
| Int (z : Z)
| NaN.

(** [a % b] on integers: the result has the sign of the dividend. *)
Definition js_rem (a b : Z) : number :=
  if b =? 0 then NaN else Int (Z.rem a b).

Definition js_add (a : number) (b : Z) : number :=
  match a with
  | Int z => Int (z + b)
  | NaN => NaN
  end.

(** [String(n)]: decimal digits, with a minus sign when negative. *)
Definition String_of_number (n : number) : jsstring :=
  match n with
  | Int z => js (NilZero.string_of_int (Z.to_int z))
  | NaN => js "NaN"
  end.

(** 32-bit conversions of ECMAScript. *)
Definition ToUint32 (z : Z) : Z := z mod 2 ^ 32.

Definition ToInt32 (z : Z) : Z := (z + 2 ^ 31) mod 2 ^ 32 - 2 ^ 31.

(** [a ^ b] *)
Definition bitxor (a b : Z) : Z := ToInt32 (Z.lxor (ToInt32 a) (ToInt32 b)).

(** [Math.imul(a, b)] *)
Definition Math_imul (a b : Z) : Z := ToInt32 (ToUint32 a * ToUint32 b).

(** [a >>> 0] *)
Definition ushr0 (a : Z) : Z := ToUint32 a.

(** ** The hash function *)

Definition fnv_32_prime : Z := 0x01000193.

Definition fnv1a_32 (str : jsstring) : Z :=
  let hval :=
    fold_left (fun hval c => Math_imul (bitxor hval c) fnv_32_prime)
              str 0x811c9dc5 in
  ushr0 hval.

(** The FNV-1a reference, as the specification words it: start from the
    offset basis; for each character, XOR then multiply modulo 2^32. *)
Definition fnv1a_reference (s : jsstring) : Z :=
  fold_left (fun h b => (Z.lxor h b * 0x01000193) mod 2 ^ 32) s 0x811c9dc5.

(** ** Key validation: the pattern [/^[0-9a-f]{32}$/i]

    With the [i] flag and without [u], a character matches a class when its
    canonical form (its upper-case form, if that is a single code unit and
    does not turn a non-ASCII character into an ASCII one) equals the
    canonical form of a member of the class.  The class here has ASCII
    members only, so the canonical form of non-ASCII characters, which can
    never be ASCII, does not matter and is left as the character itself. *)
Definition Canonicalize (ch : Z) : Z :=
  if (97 <=? ch) && (ch <=? 122) then ch - 32 else ch.

Fixpoint char_range (lo : Z) (n : nat) : list Z :=
  match n with
  | O => []
  | S n' => lo :: char_range (lo + 1) n'
  end.

(** The members of [[0-9a-f]]. *)
Definition class_0_9a_f : list Z := char_range 48 10 ++ char_range 97 6.

Definition class_matches_i (class : list Z) (ch : Z) : bool :=
  existsb (fun m => Canonicalize m =? Canonicalize ch) class.

(** [{n}]: exactly [n] characters of the class; the rest of the input. *)
Fixpoint match_repeat (class : list Z) (n : nat) (s : jsstring)
  : option jsstring :=
  match n with
  | O => Some s
  | S n' =>
      match s with
      | c :: r => if class_matches_i class c then match_repeat class n' r
                  else None
      | [] => None
      end
  end.

(** [^] anchors the match at index 0 and [$] (no [m] flag) at the end of the
    input. *)
Definition hexPattern_test (key : jsstring) : bool :=
  match match_repeat class_0_9a_f 32 key with
  | Some [] => true
  | _ => false
  end.

Definition validateKey (key : jsstring) : bool := hexPattern_test key.

(** A hexadecimal digit, in either case. *)
Definition is_hex (c : Z) : bool :=
  ((48 <=? c) && (c <=? 57)) || ((97 <=? c) && (c <=? 102))
  || ((65 <=? c) && (c <=? 70)).

(** ** Metadata and the chunk locator *)

Record Meta : Type := mkMeta { total_chunks : Z; total_keys : Z }.

Definition default_meta : Meta :=
  {| total_chunks := 2860; total_keys := 14300247 |}.

Definition getChunkId_with (m : Meta) (key : jsstring) : number :=
  let hash := fnv1a_32 key in
  js_add (js_rem hash (total_chunks m)) 1.


(** ** The chunk cache: a JavaScript [Map]

    A [Map] iterates in insertion order, and the eviction below depends on
    it, so the map is the list of its entries, oldest first.  [set] on a key
    already present replaces the value where the entry stands; [set] on a new
    key appends; [delete] removes the entry. *)
Definition Map := list (jsstring * jsstring).

Fixpoint Map_get (k : jsstring) (m : Map) : option jsstring :=
  match m with
  | [] => None
  | (k', v) :: r => if str_eqb k' k then Some v else Map_get k r
  end.

Fixpoint Map_has (k : jsstring) (m : Map) : bool :=
  match m with
  | [] => false
  | (k', _) :: r => str_eqb k' k || Map_has k r
  end.

Fixpoint Map_set (k v : jsstring) (m : Map) : Map :=
  match m with
  | [] => [(k, v)]
  | (k', v') :: r =>
      if str_eqb k' k then (k', v) :: r else (k', v') :: Map_set k v r
  end.

Fixpoint Map_delete (k : jsstring) (m : Map) : Map :=
  match m with
  | [] => []
  | (k', v') :: r =>
      if str_eqb k' k then r else (k', v') :: Map_delete k r
  end.

Definition Map_size (m : Map) : Z := Z.of_nat (List.length m).

Definition Map_keys (m : Map) : list jsstring := map fst m.

(** [m.keys().next().value]: the oldest key, [undefined] on an empty map. *)
Definition Map_first_key (m : Map) : option jsstring :=
  match m with
  | [] => None
  | (k, _) :: _ => Some k
  end.

(** The constructor sets [maxCacheSize] to 10 and nothing assigns it again. *)
Definition maxCacheSize : Z := 10.

Definition addToCache_map (key value : jsstring) (cache : Map) : Map :=
  let cache' :=
    if maxCacheSize <=? Map_size cache then
      match Map_first_key cache with
      | Some firstKey => Map_delete firstKey cache
      | None => cache
      end
    else cache in
  Map_set key value cache'.

(** ** The chunk scanner *)

Fixpoint scan_lines (lines : list jsstring) (targetKey : jsstring)
  : option jsstring :=
  match lines with
  | [] => None
  | line :: rest =>
      match trim line with
      | [] => scan_lines rest targetKey
      | _ :: _ =>
          let colonIndex := indexOf 58 line in
          if colonIndex =? -1 then scan_lines rest targetKey
          else
            let key := trim (substring line 0 colonIndex) in
            if str_eqb key targetKey
            then Some (trim (substring_from line (colonIndex + 1)))
            else scan_lines rest targetKey
      end
  end.

(** [null] is [None]. *)
Definition scanChunk (chunkText targetKey : jsstring) : option jsstring :=
  scan_lines (split 10 chunkText) targetKey.

(** The scanner as the specification words it: the records of a chunk are
    its lines that are not blank and hold a colon, each cut at its first
    colon into a trimmed key and a trimmed value; the result is the value of
    the first record whose key is the target. *)
Definition has_colon (line : jsstring) : bool := existsb (Z.eqb 58) line.

Fixpoint before_colon (line : jsstring) : jsstring :=
  match line with
  | [] => []
  | c :: r => if c =? 58 then [] else c :: before_colon r
  end.

Fixpoint after_colon (line : jsstring) : jsstring :=
  match line with
  | [] => []
  | c :: r => if c =? 58 then r else after_colon r
  end.

Definition is_blank (line : jsstring) : bool := forallb isWhiteSpace line.

Definition records (content : jsstring) : list (jsstring * jsstring) :=
  map (fun line => (trim (before_colon line), trim (after_colon line)))
      (filter (fun line => negb (is_blank line) && has_colon line)
              (split 10 content)).

Definition scan_spec (content targetKey : jsstring) : option jsstring :=
  option_map snd (find (fun r => str_eqb (fst r) targetKey) (records content)).

(** ** The world a lookup runs in

    The engine object ([meta], [cache]) together with what it reaches outside
    itself: the network behind [fetch], the clock behind [performance.now]
    and the progress callback.  [network n url] is the outcome of the
    request for [url] when [n] requests were made before it; [fetched] logs
    the requests made; [clock n] is the [n]-th reading of the clock;
    [progress] logs what the callback was handed.  A lookup is modelled as
    running from entry to exit without another lookup in between. *)
Inductive text_outcome : Type :=
| TextResolves (text : jsstring)
| TextRejects (message : jsstring).

Inductive fetch_outcome : Type :=
| FetchRejects (message : jsstring)
| FetchResponds (ok : bool) (body : text_outcome).

Record World : Type := mkWorld {
  meta : option Meta;
  cache : Map;
  network : nat -> jsstring -> fetch_outcome;
  fetched : list jsstring;
  clock : nat -> Q;
  ticks : nat;
  progress : list jsstring
}.

Definition set_cache (c : Map) (w : World) : World :=
  mkWorld (meta w) c (network w) (fetched w) (clock w) (ticks w) (progress w).

Definition log_fetch (url : jsstring) (w : World) : World :=
  mkWorld (meta w) (cache w) (network w) (fetched w ++ [url]) (clock w)
          (ticks w) (progress w).

Definition tick (w : World) : World :=
  mkWorld (meta w) (cache w) (network w) (fetched w) (clock w) (S (ticks w))
          (progress w).

Definition log_progress (step : jsstring) (w : World) : World :=
  mkWorld (meta w) (cache w) (network w) (fetched w) (clock w) (ticks w)
          (progress w ++ [step]).

(** What [new HashlyLookup()] followed by [init()] leaves: [loadMetadata]
    stores the descriptor or, failing that, the defaults. *)
Definition initial_world (m : Meta) (net : nat -> jsstring -> fetch_outcome)
  (clk : nat -> Q) : World :=
  mkWorld (Some m) [] net [] clk O [].

(** ** Effects: state and exceptions

    A computation takes the world and completes normally or by throwing;
    what it did to the world before throwing stays done. *)
Inductive thrown : Type :=
| Error (message : jsstring)
| TypeError (message : jsstring).

Definition message_of (e : thrown) : jsstring :=
  match e with
  | Error m => m
  | TypeError m => m
  end.

Inductive completion (A : Type) : Type :=
| Normal (a : A)
| Throw (e : thrown).

Arguments Normal {A} a.
Arguments Throw {A} e.

Definition Eff (A : Type) : Type := World -> completion A * World.

Definition ret {A} (a : A) : Eff A := fun w => (Normal a, w).

Definition throw {A} (e : thrown) : Eff A := fun w => (Throw e, w).

Definition bind {A B} (c : Eff A) (k : A -> Eff B) : Eff B :=
  fun w =>
    match c w with
    | (Normal a, w') => k a w'
    | (Throw e, w') => (Throw e, w')
    end.

Definition try_catch {A} (c : Eff A) (handler : thrown -> Eff A) : Eff A :=
  fun w =>
    match c w with
    | (Normal a, w') => (Normal a, w')
    | (Throw e, w') => handler e w'
    end.

Definition gets {A} (f : World -> A) : Eff A := fun w => (Normal (f w), w).

Definition modify (f : World -> World) : Eff unit :=
  fun w => (Normal tt, f w).

Declare Scope eff_scope.
Delimit Scope eff_scope with eff.
Notation "x <- c ;; k" := (bind c (fun x => k))
  (at level 61, c at next level, right associativity) : eff_scope.
Notation "c ;; k" := (bind c (fun _ => k))
  (at level 61, right associativity) : eff_scope.
Local Open Scope eff_scope.

(** ** Doubles

    A JavaScript number is an IEEE 754 binary64 value.  The finite ones are
    rationals, and an operation returns the double nearest to the exact
    result, ties going to the even significand.  [to_double] is that
    rounding: the significand has 53 bits and the exponent of its last bit
    is at least -1074 (subnormal numbers).  Overflow to Infinity is not
    modelled; the readings of a clock in milliseconds are far below it. *)
Definition round_half_even (num den : Z) : Z :=
  let q := num / den in
  let r := num mod den in
  if 2 * r <? den then q
  else if den <? 2 * r then q + 1
  else if Z.even q then q else q + 1.

(** The integer part of the binary logarithm of [n / d], for positive [n]
    and [d]. *)
Definition floor_log2 (n d : Z) : Z :=
  let k := Z.log2 n - Z.log2 d in
  let above := if 0 <=? k then d * 2 ^ k <=? n else d <=? n * 2 ^ (- k) in
  if above then k else k - 1.

Definition to_double (x : Q) : Q :=
  let n := Z.abs (Qnum x) in
  let d := Z.pos (Qden x) in
  if n =? 0 then 0%Q
  else
    let e := Z.max (floor_log2 n d - 52) (-1074) in
    let m := if 0 <=? e then round_half_even n (d * 2 ^ e)
             else round_half_even (n * 2 ^ (- e)) d in
    let s := Z.sgn (Qnum x) in
    Qred (if 0 <=? e then inject_Z (s * m * 2 ^ e)
          else (s * m) # Z.to_pos (2 ^ (- e))).

(** [a - b] on doubles. *)
Definition double_sub (a b : Q) : Q := to_double (Qminus a b).

(** [performance.now()]: the reading of the clock, as a double. *)
Definition performance_now : Eff Q :=
  t <- gets (fun w => to_double (clock w (ticks w))) ;;
  modify tick ;;
  ret t.

(** [Math.round] of a double: the nearest integer, halves towards plus
    infinity. *)
Definition Math_round (x : Q) : Z := Qfloor (Qplus x (1 # 2)).

(** [if (onProgress) onProgress(step)]: the callback of [UIController]
    writes the step to the page and returns; the model logs the step.
    [onProgress] is [true] when a callback was passed. *)
Definition report (onProgress : bool) (step : jsstring) : Eff unit :=
  if onProgress then modify (log_progress step) else ret tt.

(** [await fetch(url)] followed by the reading of the body. *)
Definition fetch (url : jsstring) : Eff fetch_outcome :=
  r <- gets (fun w => network w (List.length (fetched w)) url) ;;
  modify (log_fetch url) ;;
  ret r.

Definition addToCache (key value : jsstring) : Eff unit :=
  modify (fun w => set_cache (addToCache_map key value (cache w)) w).

Definition cacheKey_of (chunkId : number) : jsstring :=
  js "chunk_" ++ String_of_number chunkId.

Definition url_of (chunkId : number) : jsstring :=
  let filename :=
    js "chunk_" ++ padStart 5 48 (String_of_number chunkId) ++ js ".txt" in
  js "chunks/" ++ filename.

(** [has] followed by [get] on the same key: the entry [has] finds is the
    one [get] returns, so the two calls are one match on [Map_get]. *)
Definition fetchChunk (chunkId : number) : Eff jsstring :=
  let cacheKey := cacheKey_of chunkId in
  c <- gets cache ;;
  match Map_get cacheKey c with
  | Some text => ret text
  | None =>
      let url := url_of chunkId in
      response <- fetch url ;;
      match response with
      | FetchRejects message => throw (TypeError message)
      | FetchResponds false _ =>
          throw (Error (js "Failed to fetch chunk "
                          ++ String_of_number chunkId))
      | FetchResponds true (TextRejects message) =>
          throw (TypeError message)
      | FetchResponds true (TextResolves text) =>
          addToCache cacheKey text ;;
          ret text
      end
  end.

(** [this.meta.total_chunks] throws a TypeError when [meta] is still null;
    the wording of that message is the engine's (V8's here). *)
Definition null_meta_message : jsstring :=
  js "Cannot read properties of null (reading 'total_chunks')".

Definition getChunkId (key : jsstring) : Eff number :=
  m <- gets meta ;;
  match m with
  | Some m => ret (getChunkId_with m key)
  | None => throw (TypeError null_meta_message)
  end.

(** The object [lookup] returns; a property the literal does not have is
    [None]. *)
Record LookupResult : Type := mkResult {
  success : bool;
  value : option jsstring;
  error : option jsstring;
  duration : Z;
  chunkId : option number;
  mphfIndex : option jsstring
}.

Definition invalid_key_message : jsstring :=
  js "Invalid key format. Must be 32 hexadecimal characters.".

Definition key_not_found_message : jsstring := js "Key not found in dataset".

(** Inserting a run of chunks, oldest first, and the entry a chunk id and
    its text make. *)
Definition entry_of (e : number * jsstring) : jsstring * jsstring :=
  (cacheKey_of (fst e), snd e).

Fixpoint insert_all (entries : list (number * jsstring)) : Eff unit :=
  match entries with
  | [] => ret tt
  | e :: rest => addToCache (cacheKey_of (fst e)) (snd e) ;; insert_all rest
  end.

(** The entries a map holds for a chunk id. *)
Definition entries_for (chunkId : number) (m : Map) : Map :=
  filter (fun e => str_eqb (fst e) (cacheKey_of chunkId)) m.

(** The invariant of the cache. *)
Definition cache_ok (m : Map) : Prop :=
  Map_size m <= maxCacheSize /\ NoDup (Map_keys m).

(** The worlds after a step: an entry of the log or a reading of the clock
    more, the cache as it was. *)
Definition reported (onProgress : bool) (step : jsstring) (w : World)
  : World :=
  if onProgress then log_progress step w else w.

Definition elapsed (w : World) (startTime : Q) : Z :=
  Math_round (double_sub (to_double (clock w (ticks w))) startTime).

Definition failure (message : jsstring) (d : Z) : LookupResult :=
  {| success := false; value := None; error := Some message;
     duration := d; chunkId := None; mphfIndex := None |}.

Definition found (v : jsstring) (id : number) (d : Z) : LookupResult :=
  {| success := true; value := Some v; error := None;
     duration := d; chunkId := Some id; mphfIndex := Some (js "N/A") |}.

Section Engine.

(** [String.prototype.toLowerCase] follows the Unicode case tables, which
    are the engine's and not the program's.  On a string of ASCII and
    white-space characters, none of which has a case mapping other than
    A-Z, it maps A-Z to a-z character by character; on any other string it
    is [unicode_toLowerCase], left open. *)
Variable unicode_toLowerCase : jsstring -> jsstring.

Definition ascii_lower (c : Z) : Z :=
  if (65 <=? c) && (c <=? 90) then c + 32 else c.

Definition plain (c : Z) : bool :=
  ((0 <=? c) && (c <? 128)) || isWhiteSpace c.

Definition toLowerCase (s : jsstring) : jsstring :=
  if forallb plain s then map ascii_lower s else unicode_toLowerCase s.

Definition normalizeKey (key : jsstring) : jsstring :=
  trim (toLowerCase key).

Definition lookup (key : jsstring) (onProgress : bool) : Eff LookupResult :=
  startTime <- performance_now ;;
  try_catch
    (report onProgress (js "Validating key...") ;;
     (if negb (validateKey key)
      then throw (Error invalid_key_message) else ret tt) ;;
     let normalizedKey := normalizeKey key in
     report onProgress (js "Calculating chunk ID...") ;;
     chunkId <- getChunkId normalizedKey ;;
     report onProgress
       (js "Loading chunk " ++ String_of_number chunkId ++ js "...") ;;
     chunkText <- fetchChunk chunkId ;;
     report onProgress (js "Scanning for key...") ;;
     let value := scanChunk chunkText normalizedKey in
     endTime <- performance_now ;;
     let duration := Math_round (double_sub endTime startTime) in
     match value with
     | None => throw (Error key_not_found_message)
     | Some value =>
         ret {| success := true; value := Some value; error := None;
                duration := duration; chunkId := Some chunkId;
                mphfIndex := Some (js "N/A") |}
     end)
    (fun error =>
       endTime <- performance_now ;;
       let duration := Math_round (double_sub endTime startTime) in
       ret {| success := false; value := None;
              error := Some (message_of error);
              duration := duration; chunkId := None; mphfIndex := None |}).


(** The engine's methods that touch the cache, called in any order with any
    arguments, starting from an engine whose cache is empty. *)
Inductive step : World -> World -> Prop :=
| step_lookup key onProgress w :
    step w (snd (lookup key onProgress w))
| step_fetchChunk chunkId w :
    step w (snd (fetchChunk chunkId w))
| step_addToCache key value w :
    step w (snd (addToCache key value w)).

Inductive reachable : World -> Prop :=
| reachable_new w : cache w = [] -> reachable w
| reachable_step w w' : reachable w -> step w w' -> reachable w'.

End Engine.

(** ** Start-up: the constructor, [loadMetadata] and [init]

    [response.json()] on the descriptor, by what [loadMetadata] does with
    the outcome: the body is not JSON; or it is [null]; or it is an object
    holding both counts as integers; or it is any other value (a number, a
    string, a boolean, an array, an object whose counts are missing or are
    not integers).  After storing the value [loadMetadata] builds a log line
    from its counts; on [null] that throws, on integer counts it does not,
    and on another value it may ([log_error], the message, when it does:
    a count that is an object which cannot be called or printed).
    [JSON_meta] is the parser, the engine's and not the program's. *)
Inductive json_meta : Type :=
| JsonRejects (message : jsstring)
| JsonNull
| JsonMeta (m : Meta)
| JsonOther (log_error : option jsstring).

Definition set_meta (m : option Meta) (w : World) : World :=
  mkWorld m (cache w) (network w) (fetched w) (clock w) (ticks w)
          (progress w).

(** The engine object with the flag [init] sets; no method reads the
    flag.  [meta_foreign] is true when [this.meta] holds a value that is
    neither [null] nor an object with two integer counts: [meta] of the
    engine cannot hold such a value and is then [None], and the model of
    [lookup] does not describe that engine. *)
Record HashlyLookup : Type := mkHashlyLookup {
  initialized : bool;
  meta_foreign : bool;
  engine : World
}.

(** [new HashlyLookup()], in an environment with the given network and
    clock. *)
Definition constructor (net : nat -> jsstring -> fetch_outcome)
  (clk : nat -> Q) : HashlyLookup :=
  {| initialized := false; meta_foreign := false;
     engine := mkWorld None [] net [] clk O [] |}.

Definition null_total_keys_message : jsstring :=
  js "Cannot read properties of null (reading 'total_keys')".

(** [this.meta = value] *)
Definition store_meta (m : option Meta) (foreign : bool) (h : HashlyLookup)
  : HashlyLookup :=
  {| initialized := initialized h; meta_foreign := foreign;
     engine := set_meta m (engine h) |}.

Definition with_engine (w : World) (h : HashlyLookup) : HashlyLookup :=
  {| initialized := initialized h; meta_foreign := meta_foreign h;
     engine := w |}.

Section Startup.

Variable JSON_meta : jsstring -> json_meta.

(** The body of the [try] of [loadMetadata].  After the assignment to
    [this.meta] the template of [console.log] reads [this.meta.total_keys]
    and prints both counts. *)
Definition loadMetadata_try (h : HashlyLookup)
  : completion unit * HashlyLookup :=
  match fetch (js "meta.json") (engine h) with
  | (Throw error, w) => (Throw error, with_engine w h)
  | (Normal response, w) =>
      let h := with_engine w h in
      match response with
      | FetchRejects message => (Throw (TypeError message), h)
      | FetchResponds false _ =>
          (Throw (Error (js "Failed to load metadata")), h)
      | FetchResponds true (TextRejects message) =>
          (Throw (TypeError message), h)
      | FetchResponds true (TextResolves text) =>
          match JSON_meta text with
          | JsonRejects message => (Throw (Error message), h)
          | JsonNull =>
              (Throw (TypeError null_total_keys_message),
               store_meta None false h)
          | JsonMeta m => (Normal tt, store_meta (Some m) false h)
          | JsonOther None => (Normal tt, store_meta None true h)
          | JsonOther (Some message) =>
              (Throw (TypeError message), store_meta None true h)
          end
      end
  end.

(** [loadMetadata]: whatever the [try] throws, the handler installs the
    defaults. *)
Definition loadMetadata (h : HashlyLookup)
  : completion unit * HashlyLookup :=
  match loadMetadata_try h with
  | (Normal _, h') => (Normal tt, h')
  | (Throw error, h') =>
      (Normal tt, store_meta (Some default_meta) false h')
  end.

(** [init]: the handler logs the error and throws it again. *)
Definition init (h : HashlyLookup) : completion bool * HashlyLookup :=
  match loadMetadata h with
  | (Normal _, h') =>
      (Normal true,
       {| initialized := true; meta_foreign := meta_foreign h';
          engine := engine h' |})
  | (Throw error, h') => (Throw error, h')
  end.

End Startup.

(** Fetching a run of chunks one after the other, as successive lookups
    do; the first failure ends the run. *)
Fixpoint fetchChunks (ids : list number) : Eff (list jsstring) :=
  match ids with
  | [] => ret []
  | id :: rest =>
      text <- fetchChunk id ;;
      texts <- fetchChunks rest ;;
      ret (text :: texts)
  end.

(** A text with every line feed preceded by a carriage return. *)
Definition to_crlf (s : jsstring) : jsstring :=
  flat_map (fun c => if c =? 10 then [13; 10] else [c]) s.

(** A string that neither starts nor ends with white space. *)
Definition clean_ends (k : jsstring) : Prop :=
  (forall c r, k = c :: r -> isWhiteSpace c = false)
  /\ (forall c r, rev k = c :: r -> isWhiteSpace c = false).

(** The lines of a text with CR LF line ends: every line but the last
    ends with a carriage return. *)
Fixpoint crlf_lines (lines : list jsstring) : list jsstring :=
  match lines with
  | [] => []
  | [l] => [l]
  | l :: ls => (l ++ [13]) :: crlf_lines ls
  end.

(** A hexadecimal digit in lower case. *)
Definition is_lower_hex (c : Z) : bool :=
  ((48 <=? c) && (c <=? 57)) || ((97 <=? c) && (c <=? 102)).

(** ** The MPHF evaluator of [src/mphf/mphf.js] *)

Module MPHFEvaluator.

(** [a << 5] *)
Definition shl5 (a : Z) : Z := ToInt32 (Z.shiftl (ToInt32 a) 5).

(** [a & b] *)
Definition bitand (a b : Z) : Z := ToInt32 (Z.land (ToInt32 a) (ToInt32 b)).

(** [Math.abs] *)
Definition Math_abs (a : Z) : Z := Z.abs a.

Definition simpleHash (key : jsstring) : Z :=
  let hash :=
    fold_left (fun hash char =>
                 let hash := (shl5 hash - hash) + char in
                 bitand hash hash)
              key 0 in
  Math_abs hash.

(** The polynomial the loop evaluates: each character is added to 31 times
    what came before. *)
Definition poly31 (key : jsstring) : Z :=
  fold_left (fun h c => 31 * h + c) key 0.

Section Table.

(** The debug mapping is whatever JSON the descriptor holds: [jsvalue] are
    the JavaScript values, [JSON_parse] the parser ([None] when it throws),
    [ToBoolean] the truth of a value in a condition and [Get] the reading of
    a property. *)
Variable jsvalue : Type.
Variable JSON_parse : jsstring -> option jsvalue.
Variable ToBoolean : jsvalue -> bool.
Variable Get : jsvalue -> jsstring -> jsvalue.

(** [lookupTable] is [None] while it is the [null] of the constructor. *)
Record t : Type := mk {
  lookupTable : option jsvalue;
  loaded : bool;
  debugMode : bool
}.

Definition constructor : t :=
  {| lookupTable := None; loaded := false; debugMode := false |}.

(** What [lookup] returns: a property of the table or a hash. *)
Inductive index : Type :=
| FromTable (v : jsvalue)
| FromHash (h : Z).

(** [load], given the outcome of the request for [mphf/mphf_debug.json].
    The inner handler ignores whatever the request or the parse throws. *)
Definition load (outcome : fetch_outcome) (e : t) : bool * t :=
  let demo := (true, {| lookupTable := lookupTable e; loaded := true;
                        debugMode := debugMode e |}) in
  match outcome with
  | FetchResponds true (TextResolves text) =>
      match JSON_parse text with
      | Some table =>
          (true, {| lookupTable := Some table; loaded := true;
                    debugMode := true |})
      | None => demo
      end
  | _ => demo
  end.

Definition lookup (e : t) (key : jsstring) : completion index :=
  if negb (loaded e) then
    Throw (Error (js "MPHF not loaded - call load() first"))
  else
    match lookupTable e with
    | Some table =>
        if debugMode e && ToBoolean table
        then Normal (FromTable (Get table key))
        else Normal (FromHash (simpleHash key))
    | None => Normal (FromHash (simpleHash key))
    end.

End Table.

Arguments lookupTable {jsvalue} _.
Arguments loaded {jsvalue} _.
Arguments debugMode {jsvalue} _.
Arguments FromTable {jsvalue} v.
Arguments FromHash {jsvalue} h.
Arguments load {jsvalue} JSON_parse outcome e.
Arguments lookup {jsvalue} ToBoolean Get e key.

End MPHFEvaluator.

(** ** The page: [UIController]

    The page is the fields the controller reads and writes: the text of the
    input, the class of its indicator, the texts of the loading, result and
    error elements, whether the button is disabled and whether each
    container carries the class [hidden].  The class [show] and the timers
    that add it are animation and are left out; the timer [hideAll] starts
    is cancelled by [showLoading] before it can run. *)
Record UIController : Type := mkUI {
  isSearching : bool;
  searchInput_value : jsstring;
  inputIndicator_className : jsstring;
  loadingSteps_text : jsstring;
  loadingContainer_hidden : bool;
  searchButton_disabled : bool;
  resultValue_text : jsstring;
  resultStats_html : jsstring;
  resultContainer_hidden : bool;
  errorMessage_text : jsstring;
  errorContainer_hidden : bool
}.

Definition set_isSearching (b : bool) (ui : UIController) : UIController :=
  mkUI b (searchInput_value ui) (inputIndicator_className ui)
       (loadingSteps_text ui) (loadingContainer_hidden ui)
       (searchButton_disabled ui) (resultValue_text ui)
       (resultStats_html ui) (resultContainer_hidden ui)
       (errorMessage_text ui) (errorContainer_hidden ui).

Definition validateInput (value : jsstring) (ui : UIController)
  : UIController :=
  let isValid := hexPattern_test value in
  let isEmpty := (List.length value =? 0)%nat in
  let className :=
    if isEmpty then js "input-indicator"
    else if isValid then js "input-indicator valid"
    else js "input-indicator invalid" in
  mkUI (isSearching ui) (searchInput_value ui) className
       (loadingSteps_text ui) (loadingContainer_hidden ui)
       (searchButton_disabled ui) (resultValue_text ui)
       (resultStats_html ui) (resultContainer_hidden ui)
       (errorMessage_text ui) (errorContainer_hidden ui).

Definition showLoading (ui : UIController) : UIController :=
  mkUI (isSearching ui) (searchInput_value ui) (inputIndicator_className ui)
       (loadingSteps_text ui) false true (resultValue_text ui)
       (resultStats_html ui) (resultContainer_hidden ui)
       (errorMessage_text ui) (errorContainer_hidden ui).

Definition hideLoading (ui : UIController) : UIController :=
  mkUI (isSearching ui) (searchInput_value ui) (inputIndicator_className ui)
       (loadingSteps_text ui) true false (resultValue_text ui)
       (resultStats_html ui) (resultContainer_hidden ui)
       (errorMessage_text ui) (errorContainer_hidden ui).

Definition updateLoadingStep (step : jsstring) (ui : UIController)
  : UIController :=
  mkUI (isSearching ui) (searchInput_value ui) (inputIndicator_className ui)
       step (loadingContainer_hidden ui) (searchButton_disabled ui)
       (resultValue_text ui) (resultStats_html ui)
       (resultContainer_hidden ui) (errorMessage_text ui)
       (errorContainer_hidden ui).

(** [hideAll] removes [show] now and adds [hidden] from a timer. *)
Definition hideAll (ui : UIController) : UIController := ui.

Definition showError (message : jsstring) (ui : UIController)
  : UIController :=
  mkUI (isSearching ui) (searchInput_value ui) (inputIndicator_className ui)
       (loadingSteps_text ui) (loadingContainer_hidden ui)
       (searchButton_disabled ui) (resultValue_text ui)
       (resultStats_html ui) true message false.

(** A property in a template or as a text: what is missing reads
    [undefined] in a template and shows nothing as a text. *)
Definition template_of (n : option number) : jsstring :=
  match n with
  | Some n => String_of_number n
  | None => js "undefined"
  end.

Definition text_of (s : option jsstring) : jsstring :=
  match s with
  | Some s => s
  | None => []
  end.

Definition undefined_toLocaleString_message : jsstring :=
  js "Cannot read properties of undefined (reading 'toLocaleString')".

Definition stats_html (chunk time index : jsstring) : jsstring :=
  let line (s : jsstring) := [10] ++ repeat 32 12 ++ s in
  line (js "<span>Chunk: " ++ chunk ++ js "</span>")
  ++ line (js "<span>" ++ [8226] ++ js "</span>")
  ++ line (js "<span>Time: " ++ time ++ js "ms</span>")
  ++ line (js "<span>" ++ [8226] ++ js "</span>")
  ++ line (js "<span>Index: " ++ index ++ js "</span>")
  ++ [10] ++ repeat 32 8.

(** [showResult]: the error container is hidden and the value written
    before the statistics are built, where [mphfIndex.toLocaleString()]
    throws on a result without [mphfIndex]. *)
Definition showResult (result : LookupResult) (ui : UIController)
  : completion unit * UIController :=
  let ui1 :=
    mkUI (isSearching ui) (searchInput_value ui)
         (inputIndicator_className ui) (loadingSteps_text ui)
         (loadingContainer_hidden ui) (searchButton_disabled ui)
         (text_of (value result)) (resultStats_html ui)
         (resultContainer_hidden ui) (errorMessage_text ui) true in
  match mphfIndex result with
  | None => (Throw (TypeError undefined_toLocaleString_message), ui1)
  | Some index =>
      (Normal tt,
       mkUI (isSearching ui1) (searchInput_value ui1)
            (inputIndicator_className ui1) (loadingSteps_text ui1)
            (loadingContainer_hidden ui1) (searchButton_disabled ui1)
            (resultValue_text ui1)
            (stats_html (template_of (chunkId result))
                        (String_of_number (Int (duration result))) index)
            false (errorMessage_text ui1) (errorContainer_hidden ui1))
  end.

Section Page.

Variable unicode_toLowerCase : jsstring -> jsstring.

(** The callback handed to [lookup] writes each step into the loading
    element; the steps of this lookup are those the log gained. *)
Definition steps_shown (before after : World) (ui : UIController)
  : UIController :=
  fold_left (fun ui step => updateLoadingStep step ui)
            (skipn (List.length (progress before)) (progress after)) ui.

Definition handleSearch (ui : UIController) (w : World)
  : UIController * World :=
  if isSearching ui then (ui, w)
  else
    let key := trim (searchInput_value ui) in
    match key with
    | [] => (showError (js "Please enter a key") ui, w)
    | _ :: _ =>
        let ui := set_isSearching true ui in
        let ui := hideAll ui in
        let ui := showLoading ui in
        let unexpected (ui : UIController) :=
          showError (js "An unexpected error occurred") (hideLoading ui) in
        match lookup unicode_toLowerCase key true w with
        | (Normal result, w') =>
            let ui := hideLoading (steps_shown w w' ui) in
            let ui :=
              if success result then
                match showResult result ui with
                | (Normal _, ui) => ui
                | (Throw _, ui) => unexpected ui
                end
              else showError (text_of (error result)) ui in
            (set_isSearching false ui, w')
        | (Throw _, w') =>
            (set_isSearching false (unexpected (steps_shown w w' ui)), w')
        end
    end.

End Page.

(** The page with another text typed in the input. *)
Definition set_input (value : jsstring) (ui : UIController) : UIController :=
  mkUI (isSearching ui) value (inputIndicator_className ui)
       (loadingSteps_text ui) (loadingContainer_hidden ui)
       (searchButton_disabled ui) (resultValue_text ui)
       (resultStats_html ui) (resultContainer_hidden ui)
       (errorMessage_text ui) (errorContainer_hidden ui).

(** A page as it may stand before a search. *)
Definition sample_page (input : jsstring) : UIController :=
  mkUI false input (js "input-indicator") [] true false [] [] true [] true.

(** ** Sample engines

    Concrete keys, chunks and worlds on which the properties below are
    exercised.  The keys are ASCII, so the lower-casing of other strings
    never comes into play and any function can stand for it. *)
Definition sample_lower : jsstring -> jsstring := fun s => s.

Definition sample_key : jsstring := js "0123456789abcdefABCDEF0123456789".

Definition sample_chunk : jsstring :=
  js "ffffffffffffffffffffffffffffffff:other" ++ [10]
  ++ js "no colon here" ++ [10]
  ++ js "0123456789abcdefabcdef0123456789: a:b " ++ [10].

(** A network on which every chunk is missing, and one that serves
    [sample_chunk] for every request. *)
Definition network_404 : nat -> jsstring -> fetch_outcome :=
  fun _ _ => FetchResponds false (TextResolves (js "Not Found")).

Definition network_sample : nat -> jsstring -> fetch_outcome :=
  fun _ _ => FetchResponds true (TextResolves sample_chunk).

(** A clock that advances 3/4 ms at each reading. *)
Definition sample_clock : nat -> Q := fun n => (Z.of_nat n * 3 # 4)%Q.

Definition world_404 : World :=
  initial_world default_meta network_404 sample_clock.

Definition world_sample : World :=
  initial_world default_meta network_sample sample_clock.

Definition eleven_chunks : list (number * jsstring) :=
  map (fun n => (Int n, js "text")) [1; 2; 3; 4; 5; 6; 7; 8; 9; 10; 11].

(** More sample worlds: an engine before [init], a descriptor with no
    chunks, a network that is down, a descriptor served and its parser, and a
    full cache. *)
Definition world_new : World :=
  engine (constructor network_404 sample_clock).

Definition world_zero : World :=
  initial_world {| total_chunks := 0; total_keys := 0 |} network_404
                sample_clock.

Definition network_down : nat -> jsstring -> fetch_outcome :=
  fun _ _ => FetchRejects (js "Failed to fetch").

Definition world_down : World :=
  initial_world default_meta network_down sample_clock.

Definition sample_descriptor : jsstring :=
  js "{" ++ [34] ++ js "total_chunks" ++ [34] ++ js ": 4, "
  ++ [34] ++ js "total_keys" ++ [34] ++ js ": 12}".

Definition sample_JSON_meta (text : jsstring) : json_meta :=
  if str_eqb text sample_descriptor
  then JsonMeta {| total_chunks := 4; total_keys := 12 |}
  else if str_eqb text (js "null") then JsonNull
  else if str_eqb text (js "5") then JsonOther None
  else JsonRejects (js "Unexpected token").



Definition world_full : World := snd (insert_all eleven_chunks world_404).

(** A clock whose first reading is 50.7 ms and whose later ones are
    179.2 ms. *)
Definition sample_clock_tenths : nat -> Q :=
  fun n => match n with O => 507 # 10 | S _ => 1792 # 10 end.

(** * Properties *)

(** ** Strings *)

Lemma str_eqb_eq (s t : jsstring) : str_eqb s t = true <-> s = t.
Proof.
  revert t; induction s as [|c s IH]; intros [|d t]; simpl;
    try (split; [discriminate | congruence]); try tauto.
  rewrite andb_true_iff, Z.eqb_eq, IH. split.
  - intros [-> ->]; reflexivity.
  - intros H; injection H; auto.
Qed.

Lemma str_eqb_refl (s : jsstring) : str_eqb s s = true.
Proof. apply str_eqb_eq; reflexivity. Qed.

Lemma str_eqb_neq (s t : jsstring) : str_eqb s t = false <-> s <> t.
Proof.
  rewrite <- str_eqb_eq. destruct (str_eqb s t); split; congruence.
Qed.

Lemma str_eqb_sym (s t : jsstring) : str_eqb s t = str_eqb t s.
Proof.
  destruct (str_eqb s t) eqn:E.
  - apply str_eqb_eq in E; subst; symmetry; apply str_eqb_refl.
  - symmetry; apply str_eqb_neq; apply str_eqb_neq in E; congruence.
Qed.

(** ** The hash: 32-bit arithmetic *)

Lemma ToUint32_ToInt32 (z : Z) : ToUint32 (ToInt32 z) = ToUint32 z.
Proof.
  unfold ToUint32, ToInt32.
  rewrite Zminus_mod, Z.mod_mod, <- Zminus_mod by lia.
  f_equal; lia.
Qed.

Lemma lxor_mod_pow2 (a b : Z) :
  Z.lxor a b mod 2 ^ 32 = Z.lxor (a mod 2 ^ 32) (b mod 2 ^ 32).
Proof.
  rewrite <- !Z.land_ones by lia.
  apply Z.bits_inj'; intros n Hn.
  rewrite Z.lxor_spec, !Z.land_spec, Z.lxor_spec.
  destruct (Z.testbit (Z.ones 32) n);
    rewrite ?andb_true_r, ?andb_false_r; reflexivity.
Qed.

Lemma ToUint32_bitxor (a b : Z) :
  ToUint32 (bitxor a b) = Z.lxor (ToUint32 a) (ToUint32 b).
Proof.
  unfold bitxor. rewrite ToUint32_ToInt32.
  unfold ToUint32 at 1. rewrite lxor_mod_pow2.
  fold (ToUint32 (ToInt32 a)); fold (ToUint32 (ToInt32 b)).
  now rewrite !ToUint32_ToInt32.
Qed.

Lemma fnv_step (h c : Z) :
  ToUint32 (Math_imul (bitxor h c) fnv_32_prime)
  = (Z.lxor (ToUint32 h) c * 0x01000193) mod 2 ^ 32.
Proof.
  unfold Math_imul. rewrite ToUint32_ToInt32, ToUint32_bitxor.
  unfold ToUint32, fnv_32_prime.
  rewrite (Z.mod_small 16777619) by (split; [lia | reflexivity]).
  rewrite <- (Z.mul_mod_idemp_l (Z.lxor (h mod 2 ^ 32) c)) by lia.
  rewrite lxor_mod_pow2, Z.mod_mod by lia.
  reflexivity.
Qed.

Lemma fnv_fold (s : jsstring) (h : Z) :
  ToUint32 (fold_left (fun hval c => Math_imul (bitxor hval c) fnv_32_prime)
                      s h)
  = fold_left (fun h b => (Z.lxor h b * 0x01000193) mod 2 ^ 32) s
              (ToUint32 h).
Proof.
  revert h; induction s as [|c s IH]; intros h; simpl.
  - reflexivity.
  - rewrite IH, fnv_step. reflexivity.
Qed.

Lemma fnv1a_32_range (s : jsstring) : 0 <= fnv1a_32 s < 2 ^ 32.
Proof. unfold fnv1a_32, ushr0, ToUint32. apply Z.mod_pos_bound. lia. Qed.

(** C1: [fnv1a_32] is the FNV-1a 32-bit reference hash (offset basis
    0x811c9dc5; per character, XOR with the character code, then multiply by
    0x01000193 modulo 2^32); equal inputs give equal outputs; the empty
    string hashes to 0x811c9dc5. *)
Theorem fnv1a_32_is_reference :
  (forall s : jsstring, fnv1a_32 s = fnv1a_reference s)
  /\ (forall s t : jsstring, s = t -> fnv1a_32 s = fnv1a_32 t)
  /\ fnv1a_32 (js "") = 0x811c9dc5.
Proof.
  split; [|split].
  - intros s. unfold fnv1a_32, fnv1a_reference, ushr0.
    rewrite fnv_fold. reflexivity.
  - intros s t ->. reflexivity.
  - reflexivity.
Qed.

(** ** The chunk locator *)

(** C2: for a positive [total_chunks] N, [getChunkId] returns
    [(fnv1a_32 key mod N) + 1], an integer between 1 and N, and leaves the
    engine as it was. *)
Theorem getChunkId_range (w : World) (m : Meta) (key : jsstring) :
  meta w = Some m ->
  0 < total_chunks m ->
  getChunkId key w
  = (Normal (Int (fnv1a_32 key mod total_chunks m + 1)), w)
  /\ 1 <= fnv1a_32 key mod total_chunks m + 1 <= total_chunks m.
Proof.
  intros Hm Hpos. unfold getChunkId, bind, gets, ret. rewrite Hm.
  unfold getChunkId_with, js_rem.
  destruct (Z.eqb_spec (total_chunks m) 0) as [E|_]; [lia|].
  pose proof (fnv1a_32_range key) as Hr.
  rewrite Z.rem_mod_nonneg by lia. simpl.
  split; [reflexivity|].
  pose proof (Z.mod_pos_bound (fnv1a_32 key) (total_chunks m) Hpos). lia.
Qed.

(** ** The validator *)

Lemma class_matches_hex (c : Z) :
  class_matches_i class_0_9a_f c = is_hex c.
Proof.
  apply eq_true_iff_eq. unfold class_matches_i. rewrite existsb_exists.
  unfold is_hex, class_0_9a_f; simpl. split.
  - intros [m [Hin Hm]]. apply Z.eqb_eq in Hm. unfold Canonicalize in Hm.
    repeat (destruct Hin as [<-|Hin]; [simpl in Hm|]); try contradiction;
      destruct ((97 <=? c) && (c <=? 122)) eqn:E;
      try (subst c; reflexivity);
      try (assert (c = Canonicalize c - 0) as Hc by (unfold Canonicalize; lia));
      rewrite ?andb_true_iff, ?andb_false_iff, ?orb_true_iff,
        ?Z.leb_le, ?Z.leb_gt in *; lia.
  - rewrite !orb_true_iff, !andb_true_iff, !Z.leb_le. intros H.
    assert (c = 48 \/ c = 49 \/ c = 50 \/ c = 51 \/ c = 52 \/ c = 53
            \/ c = 54 \/ c = 55 \/ c = 56 \/ c = 57
            \/ c = 97 \/ c = 98 \/ c = 99 \/ c = 100 \/ c = 101 \/ c = 102
            \/ c = 65 \/ c = 66 \/ c = 67 \/ c = 68 \/ c = 69 \/ c = 70)
      as Hc by lia.
    repeat (destruct Hc as [->|Hc]);
      try subst c;
      match goal with
      | |- exists x, _ /\ (Canonicalize x =? Canonicalize ?k) = true =>
          exists (if k <? 65 then k else if k <? 97 then k + 32 else k);
          simpl; split; [tauto | reflexivity]
      end.
Qed.

Lemma match_repeat_spec (class : list Z) (n : nat) (s r : jsstring) :
  match_repeat class n s = Some r
  <-> exists p, s = p ++ r /\ List.length p = n
                /\ forallb (class_matches_i class) p = true.
Proof.
  revert s; induction n as [|n IH]; intros s; simpl.
  - split.
    + intros H; injection H as ->. exists []; auto.
    + intros [p [-> [Hl _]]]. destruct p; [reflexivity | discriminate].
  - destruct s as [|c s].
    + split; [discriminate|].
      intros [p [Hs [Hl _]]]. destruct p; discriminate.
    + destruct (class_matches_i class c) eqn:Ec.
      * rewrite IH. split.
        -- intros [p [-> [Hl Hf]]]. exists (c :: p); simpl.
           rewrite Ec, Hl; auto.
        -- intros [[|d p] [Hs [Hl Hf]]]; [discriminate|].
           simpl in *. injection Hs as -> ->. injection Hl as Hl.
           rewrite Ec in Hf. exists p; auto.
      * split; [discriminate|].
        intros [[|d p] [Hs [Hl Hf]]]; [discriminate|].
        simpl in *. injection Hs as -> ->. rewrite Ec in Hf. discriminate.
Qed.

Lemma forallb_class_hex (p : jsstring) :
  forallb (class_matches_i class_0_9a_f) p = forallb is_hex p.
Proof.
  induction p as [|c p IH]; cbn [forallb]; [reflexivity|].
  now rewrite class_matches_hex, IH.
Qed.

Lemma validateKey_iff (raw : jsstring) :
  validateKey raw = true
  <-> List.length raw = 32%nat /\ forallb is_hex raw = true.
Proof.
  unfold validateKey, hexPattern_test.
  destruct (match_repeat class_0_9a_f 32 raw) as [r|] eqn:E.
  - apply match_repeat_spec in E. destruct E as [p [-> [Hl Hf]]].
    rewrite forallb_class_hex in Hf.
    destruct r as [|d r].
    + rewrite app_nil_r. tauto.
    + split; [discriminate|]. intros [Hlen _].
      rewrite length_app in Hlen. simpl in Hlen. lia.
  - split; [discriminate|]. intros [Hl Hf].
    assert (match_repeat class_0_9a_f 32 raw = Some []) as E'.
    { apply match_repeat_spec. exists raw. rewrite app_nil_r.
      rewrite forallb_class_hex. auto. }
    congruence.
Qed.

Lemma hex_not_whitespace (c : Z) : is_hex c = true -> isWhiteSpace c = false.
Proof.
  unfold is_hex, isWhiteSpace.
  rewrite !orb_true_iff, !andb_true_iff, !Z.leb_le. intros H.
  repeat (apply orb_false_iff; split);
    rewrite ?andb_false_iff, ?Z.eqb_neq, ?Z.leb_gt; lia.
Qed.

(** C5: [validateKey raw] is true exactly when [raw] is 32 hexadecimal
    characters (0-9, a-f, A-F) and nothing else; so it is false for a string
    of length 31 or 33, for the empty string, for a string holding a
    character that is not a hexadecimal digit and for a string holding a
    white-space character. *)
Theorem validateKey_exactly_32_hex (raw : jsstring) :
  (validateKey raw = true
   <-> List.length raw = 32%nat /\ (forall c, In c raw -> is_hex c = true))
  /\ (List.length raw = 31%nat \/ List.length raw = 33%nat \/ raw = []
      \/ (exists c, In c raw /\ is_hex c = false)
      \/ (exists c, In c raw /\ isWhiteSpace c = true)
      -> validateKey raw = false).
Proof.
  rewrite validateKey_iff, forallb_forall. split; [tauto|].
  intros H. apply not_true_is_false. rewrite validateKey_iff, forallb_forall.
  intros [Hl Hh].
  destruct H as [H|[H|[H|[[c [Hin Hc]]|[c [Hin Hc]]]]]]; try lia.
  - subst raw; discriminate.
  - rewrite (Hh c Hin) in Hc; discriminate.
  - rewrite (hex_not_whitespace c (Hh c Hin)) in Hc; discriminate.
Qed.

(** ** The scanner *)

Lemma trimStart_nil_iff (s : jsstring) :
  trimStart s = [] <-> forallb isWhiteSpace s = true.
Proof.
  induction s as [|c s IH]; simpl; [tauto|].
  destruct (isWhiteSpace c); simpl; [exact IH|].
  split; discriminate.
Qed.

Lemma forallb_rev {A} (f : A -> bool) (l : list A) :
  forallb f (rev l) = forallb f l.
Proof.
  apply eq_true_iff_eq. rewrite !forallb_forall.
  split; intros H x Hx; apply H; [apply in_rev in Hx | apply in_rev]; auto.
Qed.

Lemma trimStart_blank (s : jsstring) :
  forallb isWhiteSpace (trimStart s) = true -> trimStart s = [].
Proof.
  induction s as [|c s IH]; simpl; [reflexivity|].
  destruct (isWhiteSpace c) eqn:E; [exact IH|].
  simpl. rewrite E. discriminate.
Qed.

Lemma trim_nil_iff (s : jsstring) : trim s = [] <-> is_blank s = true.
Proof.
  unfold trim, trimEnd, is_blank. split.
  - intros H. apply (f_equal (@rev Z)) in H. rewrite rev_involutive in H.
    simpl in H. apply trimStart_nil_iff in H. rewrite forallb_rev in H.
    apply trimStart_blank in H. now apply trimStart_nil_iff.
  - intros H. apply trimStart_nil_iff in H. rewrite H. reflexivity.
Qed.

Lemma indexOf_bounds (ch : Z) (s : jsstring) :
  indexOf ch s = -1 \/ 0 <= indexOf ch s < Z.of_nat (List.length s).
Proof.
  induction s as [|c s IH]; simpl; [left; reflexivity|].
  destruct (c =? ch); [right; lia|].
  destruct (Z.eqb_spec (indexOf ch s) (-1)); [left; reflexivity|].
  right; lia.
Qed.

Lemma indexOf_colon_absent (line : jsstring) :
  indexOf 58 line = -1 <-> has_colon line = false.
Proof.
  unfold has_colon.
  induction line as [|c line IH]; cbn [existsb indexOf]; [tauto|].
  rewrite (Z.eqb_sym 58 c).
  destruct (c =? 58); simpl; [split; discriminate|].
  destruct (Z.eqb_spec (indexOf 58 line) (-1)) as [E|E]; [tauto|].
  pose proof (indexOf_bounds 58 line) as B.
  split; [lia|]. intros H; apply IH in H; contradiction.
Qed.

Lemma indexOf_colon_cut (line : jsstring) :
  indexOf 58 line <> -1 ->
  firstn (Z.to_nat (indexOf 58 line)) line = before_colon line
  /\ skipn (Z.to_nat (indexOf 58 line + 1)) line = after_colon line.
Proof.
  induction line as [|c line IH]; simpl; [congruence|].
  destruct (c =? 58); [intros _; split; reflexivity|].
  destruct (Z.eqb_spec (indexOf 58 line) (-1)) as [E|E]; [congruence|].
  intros _. destruct (IH E) as [IH1 IH2].
  pose proof (indexOf_bounds 58 line) as B.
  replace (Z.to_nat (indexOf 58 line + 1))
    with (S (Z.to_nat (indexOf 58 line))) in * by lia.
  replace (Z.to_nat (indexOf 58 line + 1 + 1))
    with (S (S (Z.to_nat (indexOf 58 line)))) by lia.
  simpl. rewrite IH1. split; [reflexivity|]. exact IH2.
Qed.

Lemma substring_cut (line : jsstring) :
  indexOf 58 line <> -1 ->
  substring line 0 (indexOf 58 line) = before_colon line
  /\ substring_from line (indexOf 58 line + 1) = after_colon line.
Proof.
  intros H. destruct (indexOf_colon_cut line H) as [H1 H2].
  pose proof (indexOf_bounds 58 line) as B.
  unfold substring_from, substring, clamp. split.
  - rewrite Z.max_l, Z.min_l by lia.
    rewrite (Z.max_l (indexOf 58 line)), (Z.min_l (indexOf 58 line)) by lia.
    change (Z.to_nat 0) with O. rewrite Nat.min_0_l, Nat.max_0_l.
    simpl. exact H1.
  - rewrite Z.max_l, Z.min_l by lia.
    rewrite (Z.max_l (Z.of_nat _)), Z.min_id by lia.
    rewrite Nat2Z.id.
    rewrite Nat.min_l, Nat.max_r by lia.
    rewrite firstn_all. exact H2.
Qed.

Lemma scan_lines_spec (lines : list jsstring) (targetKey : jsstring) :
  scan_lines lines targetKey
  = option_map snd
      (find (fun r => str_eqb (fst r) targetKey)
         (map (fun line => (trim (before_colon line),
                            trim (after_colon line)))
            (filter (fun line => negb (is_blank line) && has_colon line)
               lines))).
Proof.
  induction lines as [|line rest IH]; simpl; [reflexivity|].
  destruct (trim line) as [|c t] eqn:Et.
  - apply trim_nil_iff in Et. rewrite Et. simpl. exact IH.
  - assert (is_blank line = false) as Eb.
    { apply not_true_is_false. intros Hb. apply trim_nil_iff in Hb.
      congruence. }
    rewrite Eb. simpl.
    destruct (Z.eqb_spec (indexOf 58 line) (-1)) as [E|E].
    + apply indexOf_colon_absent in E. rewrite E. exact IH.
    + assert (has_colon line = true) as Ec.
      { apply not_false_is_true. intros Hc.
        apply indexOf_colon_absent in Hc. contradiction. }
      rewrite Ec. simpl.
      destruct (substring_cut line E) as [-> ->].
      destruct (str_eqb (trim (before_colon line)) targetKey);
        [reflexivity | exact IH].
Qed.

Lemma find_some_split {A} (f : A -> bool) (l : list A) (x : A) :
  find f l = Some x
  <-> exists pre post, l = pre ++ x :: post /\ f x = true
                       /\ forall y, In y pre -> f y = false.
Proof.
  induction l as [|a l IH]; simpl.
  - split; [discriminate|]. intros [[|? ?] [? [? _]]]; discriminate.
  - destruct (f a) eqn:Ea.
    + split.
      * intros H; injection H as ->. exists [], l. simpl. tauto.
      * intros [[|b pre] [post [Hl [Hx Hpre]]]]; simpl in Hl.
        -- congruence.
        -- injection Hl as -> _. rewrite (Hpre b) in Ea by (left; auto).
           discriminate.
    + rewrite IH. split.
      * intros [pre [post [-> [Hx Hpre]]]]. exists (a :: pre), post.
        simpl. split; [reflexivity|]. split; [exact Hx|].
        intros y [<-|Hy]; auto.
      * intros [[|b pre] [post [Hl [Hx Hpre]]]]; simpl in Hl.
        -- injection Hl as -> _. congruence.
        -- injection Hl as -> ->. exists pre, post. simpl in Hpre. auto.
Qed.

(** C4: [scanChunk] cuts the content into lines, passes over blank lines and
    lines without a colon, cuts every other line at its first colon, and
    returns the trimmed text after the colon of the first line whose trimmed
    text before the colon is the target, compared exactly; it returns null
    when no line matches; a value holding colons comes back whole. *)
Theorem scanChunk_first_match (content targetKey : jsstring) :
  scanChunk content targetKey = scan_spec content targetKey
  /\ (forall v,
        scanChunk content targetKey = Some v
        <-> exists pre post,
              records content = pre ++ (targetKey, v) :: post
              /\ forall r, In r pre -> fst r <> targetKey)
  /\ (scanChunk content targetKey = None
      <-> forall r, In r (records content) -> fst r <> targetKey)
  /\ scanChunk (js "key:part1:part2") (js "key") = Some (js "part1:part2")
  /\ scanChunk (js "KEY:v") (js "key") = None.
Proof.
  assert (scanChunk content targetKey = scan_spec content targetKey) as Hs
    by apply scan_lines_spec.
  split; [exact Hs|]. rewrite Hs. unfold scan_spec.
  split; [|split; [|split; reflexivity]].
  - intros v. split.
    + destruct (find _ (records content)) as [[k v']|] eqn:E;
        [|discriminate].
      simpl. intros H; injection H as ->.
      apply find_some_split in E.
      destruct E as [pre [post [Hl [Hk Hpre]]]]. simpl in Hk.
      apply str_eqb_eq in Hk. subst k. exists pre, post.
      split; [exact Hl|]. intros r Hr. apply str_eqb_neq. auto.
    + intros [pre [post [Hl Hpre]]].
      assert (find (fun r => str_eqb (fst r) targetKey) (records content)
              = Some (targetKey, v)) as ->; [|reflexivity].
      apply find_some_split. exists pre, post.
      split; [exact Hl|]. split; [apply str_eqb_refl|].
      intros y Hy. apply str_eqb_neq. auto.
  - destruct (find _ (records content)) as [r|] eqn:E; simpl.
    + split; [discriminate|]. intros H.
      apply find_some in E. destruct E as [Hin Hk].
      apply str_eqb_eq in Hk. apply H in Hin. contradiction.
    + split; [|reflexivity]. intros _ r Hr.
      apply str_eqb_neq. exact (find_none _ _ E r Hr).
Qed.

(** ** The cache *)

Lemma Map_has_keys (k : jsstring) (m : Map) :
  Map_has k m = true <-> In k (Map_keys m).
Proof.
  induction m as [|[k' v] m IH]; simpl; [split; [discriminate | tauto]|].
  rewrite orb_true_iff, str_eqb_eq, IH. tauto.
Qed.

Lemma Map_has_get (k : jsstring) (m : Map) :
  Map_has k m = match Map_get k m with Some _ => true | None => false end.
Proof.
  induction m as [|[k' v] m IH]; simpl; [reflexivity|].
  destruct (str_eqb k' k); simpl; auto.
Qed.

Lemma Map_set_new (k v : jsstring) (m : Map) :
  Map_has k m = false -> Map_set k v m = m ++ [(k, v)].
Proof.
  induction m as [|[k' v'] m IH]; simpl; [reflexivity|].
  destruct (str_eqb k' k); simpl; [discriminate|].
  intros H. now rewrite IH.
Qed.

Lemma Map_set_old (k v : jsstring) (m : Map) :
  Map_has k m = true -> Map_keys (Map_set k v m) = Map_keys m.
Proof.
  induction m as [|[k' v'] m IH]; simpl; [discriminate|].
  destruct (str_eqb k' k); simpl; [reflexivity|].
  intros H. now rewrite IH.
Qed.

Lemma Map_get_set (k v : jsstring) (m : Map) :
  Map_get k (Map_set k v m) = Some v.
Proof.
  induction m as [|[k' v'] m IH]; simpl.
  - now rewrite str_eqb_refl.
  - destruct (str_eqb k' k) eqn:E; simpl; rewrite E; auto.
Qed.

Lemma Map_delete_first (m : Map) :
  match Map_first_key m with
  | Some firstKey => Map_delete firstKey m
  | None => m
  end = tl m.
Proof.
  destruct m as [|[k v] m]; simpl; [reflexivity|].
  now rewrite str_eqb_refl.
Qed.

Lemma addToCache_map_unfold (k v : jsstring) (m : Map) :
  addToCache_map k v m
  = Map_set k v (if maxCacheSize <=? Map_size m then tl m else m).
Proof.
  unfold addToCache_map. rewrite Map_delete_first. reflexivity.
Qed.

Lemma Map_set_ok (k v : jsstring) (m : Map) :
  NoDup (Map_keys m) ->
  NoDup (Map_keys (Map_set k v m))
  /\ Map_size (Map_set k v m) <= Map_size m + 1.
Proof.
  intros Hnd. destruct (Map_has k m) eqn:E.
  - rewrite Map_set_old by exact E. split; [exact Hnd|].
    unfold Map_size, Map_keys in *.
    rewrite <- (length_map fst (Map_set k v m)), <- (length_map fst m).
    fold (Map_keys (Map_set k v m)). rewrite Map_set_old by exact E.
    unfold Map_keys. lia.
  - rewrite Map_set_new by exact E. unfold Map_keys, Map_size.
    rewrite map_app, length_app. simpl. split; [|lia].
    apply NoDup_app; [exact Hnd | repeat constructor; simpl; tauto |].
    intros a Ha [<-|[]]. apply Map_has_keys in Ha. congruence.
Qed.

Lemma addToCache_map_ok (k v : jsstring) (m : Map) :
  cache_ok m -> cache_ok (addToCache_map k v m).
Proof.
  unfold cache_ok. intros [Hs Hnd]. rewrite addToCache_map_unfold.
  unfold maxCacheSize in *.
  destruct (Z.leb_spec 10 (Map_size m)) as [Hfull|Hroom].
  - assert (NoDup (Map_keys (tl m))) as Hnd'.
    { destruct m as [|e m]; simpl in *; [exact Hnd|].
      now inversion Hnd. }
    destruct (Map_set_ok k v (tl m) Hnd') as [H1 H2].
    split; [|exact H1].
    assert (Map_size (tl m) = Map_size m - 1).
    { destruct m as [|e m]; unfold Map_size in *;
        cbn [tl List.length] in *; lia. }
    lia.
  - destruct (Map_set_ok k v m Hnd) as [H1 H2]. split; [lia | exact H1].
Qed.

Lemma addToCache_map_get (k v : jsstring) (m : Map) :
  Map_get k (addToCache_map k v m) = Some v.
Proof. rewrite addToCache_map_unfold. apply Map_get_set. Qed.

(** What [fetchChunk] does to the cache: nothing, or one [addToCache]. *)
Lemma fetchChunk_cache (id : number) (w : World) :
  cache (snd (fetchChunk id w)) = cache w
  \/ exists text,
       cache (snd (fetchChunk id w))
       = addToCache_map (cacheKey_of id) text (cache w).
Proof.
  unfold fetchChunk, bind, gets, fetch, modify, ret, throw, addToCache.
  destruct (Map_get (cacheKey_of id) (cache w)) as [text|]; simpl;
    [left; reflexivity|].
  destruct (network w (List.length (fetched w)) (url_of id))
    as [msg|[|] [text|msg]]; simpl; try (left; reflexivity).
  right. exists text. reflexivity.
Qed.

Lemma fetchChunk_ok (id : number) (w : World) :
  cache_ok (cache w) -> cache_ok (cache (snd (fetchChunk id w))).
Proof.
  intros H. destruct (fetchChunk_cache id w) as [->|[text ->]];
    [exact H | now apply addToCache_map_ok].
Qed.

(** Distinct chunk ids have distinct cache keys. *)
Lemma js_inj (s t : string) : js s = js t -> s = t.
Proof.
  unfold js. intros H.
  rewrite <- (string_of_list_ascii_of_string s),
          <- (string_of_list_ascii_of_string t).
  f_equal. revert H.
  generalize (list_ascii_of_string s) (list_ascii_of_string t).
  intros l; induction l as [|a l IH]; intros [|b l']; simpl;
    try discriminate; [reflexivity|].
  intros H; injection H as Hab Hl. apply Nat2Z.inj in Hab.
  rewrite <- (ascii_nat_embedding a), <- (ascii_nat_embedding b), Hab.
  f_equal. auto.
Qed.

Lemma to_int_parses (z : Z) :
  NilZero.int_of_string (NilZero.string_of_int (Z.to_int z))
  = Some (Z.to_int z).
Proof.
  apply NilZero.isi; destruct z; simpl; try discriminate;
    intros H; injection H; apply Unsigned.to_uint_nonnil.
Qed.

Lemma String_of_number_inj (a b : number) :
  String_of_number a = String_of_number b -> a = b.
Proof.
  destruct a as [z|], b as [z'|]; simpl; intros H; apply js_inj in H.
  - f_equal. apply DecimalZ.to_int_inj.
    apply (f_equal NilZero.int_of_string) in H.
    rewrite !to_int_parses in H. congruence.
  - apply (f_equal NilZero.int_of_string) in H.
    rewrite to_int_parses in H. discriminate.
  - apply (f_equal NilZero.int_of_string) in H.
    rewrite to_int_parses in H. discriminate.
  - reflexivity.
Qed.

Lemma cacheKey_of_inj (a b : number) :
  cacheKey_of a = cacheKey_of b -> a = b.
Proof.
  unfold cacheKey_of. intros H. apply app_inv_head in H.
  now apply String_of_number_inj.
Qed.

Lemma NoDup_one_entry (k : jsstring) (m : Map) :
  NoDup (Map_keys m) ->
  Map_has k m = true ->
  List.length (filter (fun e => str_eqb (fst e) k) m) = 1%nat.
Proof.
  induction m as [|[k' v] m IH]; simpl; [discriminate|].
  intros Hnd. inversion Hnd as [|? ? Hnot Hnd']; subst.
  destruct (str_eqb k' k) eqn:E; simpl.
  - intros _. apply str_eqb_eq in E; subst k'.
    f_equal. apply length_zero_iff_nil.
    destruct (filter _ m) as [|e l] eqn:F; [reflexivity|].
    assert (In e (filter (fun e => str_eqb (fst e) k) m)) as Hin
      by (rewrite F; left; reflexivity).
    apply filter_In in Hin. destruct Hin as [Hin Hk].
    apply str_eqb_eq in Hk. exfalso. apply Hnot.
    rewrite <- Hk. unfold Map_keys. now apply in_map.
  - intros H. now apply IH.
Qed.

(** First in, first out. *)
Lemma tl_skipn {A} (n : nat) (l : list A) : tl (skipn n l) = skipn (S n) l.
Proof.
  revert l; induction n as [|n IH]; intros [|a l]; simpl; auto.
Qed.

Lemma Map_has_skipn (k : jsstring) (n : nat) (m : Map) :
  Map_has k m = false -> Map_has k (skipn n m) = false.
Proof.
  revert m; induction n as [|n IH]; intros [|[k' v] m]; simpl; auto.
  intros H. apply orb_false_iff in H. now apply IH.
Qed.

Lemma addToCache_map_full (k v : jsstring) (m : Map) :
  Map_has k m = false ->
  maxCacheSize <= Map_size m ->
  addToCache_map k v m = tl m ++ [(k, v)].
Proof.
  intros Hk Hfull. rewrite addToCache_map_unfold.
  destruct (Z.leb_spec maxCacheSize (Map_size m)); [|lia].
  apply Map_set_new. rewrite <- (Map_has_skipn k 1 m Hk).
  destruct m; reflexivity.
Qed.

Lemma addToCache_map_room (k v : jsstring) (m : Map) :
  Map_has k m = false ->
  Map_size m < maxCacheSize ->
  addToCache_map k v m = m ++ [(k, v)].
Proof.
  intros Hk Hroom. rewrite addToCache_map_unfold.
  destruct (Z.leb_spec maxCacheSize (Map_size m)); [lia|].
  now apply Map_set_new.
Qed.

Lemma fold_addToCache_fifo (es : Map) :
  NoDup (Map_keys es) ->
  fold_left (fun c e => addToCache_map (fst e) (snd e) c) es []
  = skipn (List.length es - 10) es.
Proof.
  induction es as [|[k v] es IH] using rev_ind; [reflexivity|].
  unfold Map_keys. rewrite map_app. simpl. intros Hnd.
  assert (NoDup (Map_keys es)) as Hes
    by (apply NoDup_app_remove_r in Hnd; exact Hnd).
  assert (Map_has k es = false) as Hk.
  { apply not_true_is_false. intros Hin. apply Map_has_keys in Hin.
    apply NoDup_remove_2 in Hnd. rewrite app_nil_r in Hnd. contradiction. }
  rewrite fold_left_app. simpl. rewrite (IH Hes).
  rewrite length_app, skipn_app. simpl.
  destruct (Nat.lt_ge_cases (List.length es) 10) as [Hlt|Hge].
  - replace (List.length es - 10)%nat with O by lia.
    replace (List.length es + 1 - 10)%nat with O by lia.
    simpl. apply addToCache_map_room; [exact Hk|].
    unfold Map_size, maxCacheSize. lia.
  - rewrite addToCache_map_full.
    + rewrite tl_skipn.
      replace (List.length es + 1 - 10)%nat
        with (S (List.length es - 10)) by lia.
      replace (S (List.length es - 10) - List.length es)%nat with O by lia.
      reflexivity.
    + now apply Map_has_skipn.
    + unfold Map_size, maxCacheSize. rewrite length_skipn. lia.
Qed.

Lemma insert_all_cache (es : list (number * jsstring)) (w : World) :
  cache (snd (insert_all es w))
  = fold_left (fun c e => addToCache_map (fst e) (snd e) c)
              (map entry_of es) (cache w).
Proof.
  revert w; induction es as [|e es IH]; intros w; [reflexivity|].
  simpl. unfold bind, addToCache, modify. simpl. rewrite IH. reflexivity.
Qed.

Lemma NoDup_cacheKeys (es : list (number * jsstring)) :
  NoDup (map fst es) -> NoDup (Map_keys (map entry_of es)).
Proof.
  unfold Map_keys. rewrite map_map. simpl.
  induction es as [|e es IH]; simpl; intros H; [constructor|].
  inversion H as [|? ? Hnot Hnd]; subst. constructor; [|auto].
  intros Hin. apply in_map_iff in Hin. destruct Hin as [e' [Heq Hin]].
  apply cacheKey_of_inj in Heq. apply Hnot. rewrite <- Heq.
  now apply in_map.
Qed.

Section Lookup.

Variable lower : jsstring -> jsstring.

(** ** The normaliser on keys and on keys wrapped in white space *)

Lemma hex_plain (c : Z) : is_hex c = true -> plain c = true.
Proof.
  unfold is_hex, plain.
  rewrite !orb_true_iff, !andb_true_iff, !Z.leb_le, Z.ltb_lt. lia.
Qed.

Lemma hex_lower_hex (c : Z) : is_hex c = true -> is_hex (ascii_lower c) = true.
Proof.
  unfold is_hex, ascii_lower.
  destruct (Z.leb_spec 65 c), (Z.leb_spec c 90); simpl;
    rewrite !orb_true_iff, !andb_true_iff, !Z.leb_le; lia.
Qed.

Lemma ws_lower (c : Z) : isWhiteSpace c = true -> ascii_lower c = c.
Proof.
  unfold isWhiteSpace, ascii_lower.
  rewrite !orb_true_iff, !andb_true_iff, !Z.eqb_eq, !Z.leb_le. intros H.
  destruct (Z.leb_spec 65 c), (Z.leb_spec c 90); simpl; lia.
Qed.

Lemma ascii_lower_idem (c : Z) : ascii_lower (ascii_lower c) = ascii_lower c.
Proof.
  unfold ascii_lower.
  destruct (Z.leb_spec 65 c), (Z.leb_spec c 90); simpl;
    destruct (Z.leb_spec 65 (c + 32)), (Z.leb_spec (c + 32) 90); simpl;
    try lia;
    destruct (Z.leb_spec 65 c), (Z.leb_spec c 90); simpl; lia.
Qed.

Lemma forallb_impl {A} (f g : A -> bool) (l : list A) :
  (forall x, f x = true -> g x = true) ->
  forallb f l = true -> forallb g l = true.
Proof.
  intros H. rewrite !forallb_forall. auto.
Qed.

Lemma toLowerCase_hex (k : jsstring) :
  forallb is_hex k = true -> toLowerCase lower k = map ascii_lower k.
Proof.
  intros H. unfold toLowerCase.
  now rewrite (forallb_impl _ _ k hex_plain H).
Qed.

Lemma lower_hex_hex (k : jsstring) :
  forallb is_hex k = true -> forallb is_hex (map ascii_lower k) = true.
Proof.
  rewrite !forallb_forall. intros H c Hc.
  apply in_map_iff in Hc. destruct Hc as [d [<- Hd]].
  apply hex_lower_hex. auto.
Qed.

Lemma map_lower_ws (ws : jsstring) :
  forallb isWhiteSpace ws = true -> map ascii_lower ws = ws.
Proof.
  induction ws as [|c ws IH]; simpl; [reflexivity|].
  rewrite andb_true_iff. intros [Hc Hws]. now rewrite ws_lower, IH.
Qed.

Lemma trimStart_ws_app (ws s : jsstring) :
  forallb isWhiteSpace ws = true -> trimStart (ws ++ s) = trimStart s.
Proof.
  induction ws as [|c ws IH]; simpl; [reflexivity|].
  rewrite andb_true_iff. intros [-> Hws]. auto.
Qed.

Lemma trimStart_hex_head (k s : jsstring) :
  k <> [] -> forallb is_hex k = true -> trimStart (k ++ s) = k ++ s.
Proof.
  destruct k as [|c k]; [congruence|]. simpl.
  rewrite andb_true_iff. intros _ [Hc _].
  now rewrite (hex_not_whitespace c Hc).
Qed.

Lemma trim_wrapped (ws1 k ws2 : jsstring) :
  forallb isWhiteSpace ws1 = true ->
  forallb isWhiteSpace ws2 = true ->
  k <> [] -> forallb is_hex k = true ->
  trim (ws1 ++ k ++ ws2) = k.
Proof.
  intros H1 H2 Hne Hk. unfold trim, trimEnd.
  rewrite (trimStart_ws_app ws1 _ H1), (trimStart_hex_head k ws2 Hne Hk).
  rewrite rev_app_distr, trimStart_ws_app by (now rewrite forallb_rev).
  rewrite <- (app_nil_r (rev k)), trimStart_hex_head.
  - now rewrite app_nil_r, rev_involutive.
  - intros E. apply (f_equal (@rev Z)) in E.
    rewrite rev_involutive in E. contradiction.
  - now rewrite forallb_rev.
Qed.

Lemma valid_nonempty (k : jsstring) : validateKey k = true -> k <> [].
Proof. intros H ->. discriminate. Qed.

Lemma normalizeKey_valid (k : jsstring) :
  validateKey k = true -> normalizeKey lower k = map ascii_lower k.
Proof.
  intros Hv. pose proof (valid_nonempty k Hv) as Hne.
  apply validateKey_iff in Hv. destruct Hv as [_ Hh].
  unfold normalizeKey. rewrite (toLowerCase_hex k Hh).
  rewrite <- (app_nil_r (map ascii_lower k)) at 1.
  apply (trim_wrapped [] (map ascii_lower k) []); auto.
  - destruct k; [congruence | discriminate].
  - now apply lower_hex_hex.
Qed.

(** ** The orchestrator *)

#[local] Arguments fetchChunk : simpl never.
#[local] Arguments js : simpl never.
#[local] Arguments report : simpl never.

Lemma meta_reported p s w : meta (reported p s w) = meta w.
Proof. destruct p; reflexivity. Qed.

Lemma cache_reported p s w : cache (reported p s w) = cache w.
Proof. destruct p; reflexivity. Qed.

Lemma fetched_reported p s w : fetched (reported p s w) = fetched w.
Proof. destruct p; reflexivity. Qed.

Lemma network_reported p s w : network (reported p s w) = network w.
Proof. destruct p; reflexivity. Qed.

Lemma report_run p s w : report p s w = (Normal tt, reported p s w).
Proof. destruct p; reflexivity. Qed.

(** The three ways through [lookup]. *)
Lemma lookup_invalid (key : jsstring) (p : bool) (w : World) :
  validateKey key = false ->
  lookup lower key p w
  = let w1 := reported p (js "Validating key...") (tick w) in
    (Normal (failure invalid_key_message (elapsed w1 (to_double (clock w (ticks w))))),
     tick w1).
Proof.
  intros Hv. unfold lookup, try_catch, bind, performance_now, gets, modify,
    ret, throw. cbn. rewrite report_run, Hv. cbn. reflexivity.
Qed.

Lemma lookup_no_meta (key : jsstring) (p : bool) (w : World) :
  validateKey key = true ->
  meta w = None ->
  lookup lower key p w
  = let w1 := reported p (js "Calculating chunk ID...")
                (reported p (js "Validating key...") (tick w)) in
    (Normal (failure null_meta_message (elapsed w1 (to_double (clock w (ticks w))))),
     tick w1).
Proof.
  intros Hv Hm. unfold lookup, try_catch, bind, performance_now, gets,
    modify, ret, throw, getChunkId. cbn.
  rewrite report_run, Hv. cbn. rewrite report_run.
  rewrite !meta_reported. cbn. rewrite Hm. reflexivity.
Qed.

Lemma lookup_valid (key : jsstring) (p : bool) (w : World) (m : Meta) :
  validateKey key = true ->
  meta w = Some m ->
  lookup lower key p w
  = let t0 := to_double (clock w (ticks w)) in
    let nk := normalizeKey lower key in
    let id := getChunkId_with m nk in
    let w1 :=
      reported p (js "Loading chunk " ++ String_of_number id ++ js "...")
        (reported p (js "Calculating chunk ID...")
           (reported p (js "Validating key...") (tick w))) in
    match fetchChunk id w1 with
    | (Normal text, w2) =>
        let w3 := reported p (js "Scanning for key...") w2 in
        match scanChunk text nk with
        | Some v => (Normal (found v id (elapsed w3 t0)), tick w3)
        | None =>
            (Normal (failure key_not_found_message (elapsed (tick w3) t0)),
             tick (tick w3))
        end
    | (Throw e, w2) =>
        (Normal (failure (message_of e) (elapsed w2 t0)), tick w2)
    end.
Proof.
  intros Hv Hm. unfold lookup, try_catch, bind, performance_now, gets,
    modify, ret, throw, getChunkId. cbn.
  rewrite report_run, Hv. cbn. rewrite report_run.
  rewrite !meta_reported. cbn. rewrite Hm. cbn. rewrite report_run.
  destruct (fetchChunk _ _) as [[text|e] w2]; [|reflexivity].
  rewrite report_run.
  destruct (scanChunk text _); reflexivity.
Qed.

(** The ways through [fetchChunk]. *)
Lemma fetchChunk_hit (id : number) (w : World) (text : jsstring) :
  Map_get (cacheKey_of id) (cache w) = Some text ->
  fetchChunk id w = (Normal text, w).
Proof.
  intros H. unfold fetchChunk, bind, gets, ret. now rewrite H.
Qed.

Lemma fetchChunk_not_ok (id : number) (w : World) (body : text_outcome) :
  Map_get (cacheKey_of id) (cache w) = None ->
  network w (List.length (fetched w)) (url_of id)
  = FetchResponds false body ->
  fetchChunk id w
  = (Throw (Error (js "Failed to fetch chunk " ++ String_of_number id)),
     log_fetch (url_of id) w).
Proof.
  intros Hc Hn. unfold fetchChunk, bind, gets, fetch, modify, ret, throw.
  rewrite Hc. cbn. rewrite Hn. reflexivity.
Qed.

(** What [fetchChunk] leaves alone, and what it leaves behind when it
    returns a text. *)
Lemma fetchChunk_frame (id : number) (w : World) :
  let w' := snd (fetchChunk id w) in
  meta w' = meta w /\ network w' = network w /\ clock w' = clock w
  /\ ticks w' = ticks w /\ progress w' = progress w.
Proof.
  unfold fetchChunk, bind, gets, fetch, modify, ret, throw, addToCache.
  destruct (Map_get (cacheKey_of id) (cache w)) as [text|]; cbn;
    [tauto|].
  destruct (network w (List.length (fetched w)) (url_of id))
    as [msg|[|] [text|msg]]; cbn; tauto.
Qed.

Lemma fetchChunk_returns (id : number) (w w' : World) (text : jsstring) :
  fetchChunk id w = (Normal text, w') ->
  Map_get (cacheKey_of id) (cache w') = Some text.
Proof.
  unfold fetchChunk, bind, gets, fetch, modify, ret, throw, addToCache.
  destruct (Map_get (cacheKey_of id) (cache w)) as [text0|] eqn:E; cbn.
  - intros H; injection H as -> ->. exact E.
  - destruct (network w (List.length (fetched w)) (url_of id))
      as [msg|[|] [text0|msg]]; cbn; try discriminate.
    intros H; injection H as -> <-. cbn. apply addToCache_map_get.
Qed.

(** A lookup always returns, and the world it leaves is the one
    [fetchChunk] left, up to the clock and the progress log. *)
Lemma lookup_returns (key : jsstring) (p : bool) (w : World) :
  exists r w',
    lookup lower key p w = (Normal r, w')
    /\ ((exists v id, r = found v id (duration r))
        \/ (exists msg, r = failure msg (duration r)))
    /\ duration r
       = Math_round (double_sub (to_double (clock w (pred (ticks w'))))
                                (to_double (clock w (ticks w))))
    /\ meta w' = meta w
    /\ (cache w' = cache w
        \/ exists k v, cache w' = addToCache_map k v (cache w)).
Proof.
  destruct (validateKey key) eqn:Hv.
  - destruct (meta w) as [m|] eqn:Hm.
    + rewrite (lookup_valid key p w m Hv Hm). cbv zeta.
      set (w1 := reported p _ (reported p _ (reported p _ (tick w)))).
      assert (cache w1 = cache w) as Hc1
        by (unfold w1; now rewrite !cache_reported).
      assert (meta w1 = meta w) as Hm1
        by (unfold w1; now rewrite !meta_reported).
      assert (clock w1 = clock w /\ ticks w1 = S (ticks w)) as [Hk1 Ht1]
        by (unfold w1; destruct p; split; reflexivity).
      pose proof (fetchChunk_frame (getChunkId_with m (normalizeKey lower key))
                    w1) as F.
      pose proof (fetchChunk_cache (getChunkId_with m (normalizeKey lower key))
                    w1) as C.
      destruct (fetchChunk _ w1) as [[text|e] w2]; cbn in F, C;
        destruct F as [Fm [_ [Fk [Ft _]]]].
      * assert (forall s, cache (reported p s w2) = cache w2
                         /\ meta (reported p s w2) = meta w2
                         /\ clock (reported p s w2) = clock w2
                         /\ ticks (reported p s w2) = ticks w2) as R
          by (intros s; destruct p; repeat split; reflexivity).
        destruct (scanChunk text _) as [v|]; do 2 eexists;
          (split; [reflexivity|]); cbn;
          destruct (R (js "Scanning for key...")) as [Rc [Rm [Rk Rt]]];
          rewrite ?Rc, ?Rm, ?Rk, ?Rt, ?Fk, ?Ft, ?Hk1, ?Ht1, ?Fm, ?Hm1, ?Hm;
          unfold elapsed; cbn; rewrite ?Rc, ?Rk, ?Rt, ?Fk, ?Ft, ?Hk1, ?Ht1;
          (split; [eauto|]); (split; [reflexivity|]); (split; [reflexivity|]);
          destruct C as [C|[text' C]]; rewrite C, Hc1; eauto.
      * do 2 eexists; (split; [reflexivity|]); cbn.
        unfold elapsed. rewrite ?Fk, ?Ft, ?Hk1, ?Ht1, ?Fm, ?Hm1, ?Hm. cbn.
        (split; [eauto|]); (split; [reflexivity|]); (split; [reflexivity|]).
        destruct C as [C|[text' C]]; rewrite C, Hc1; eauto.
    + rewrite (lookup_no_meta key p w Hv Hm). cbv zeta.
      do 2 eexists; (split; [reflexivity|]).
      destruct p; cbn; unfold elapsed; cbn; rewrite ?Hm; eauto 10.
  - rewrite (lookup_invalid key p w Hv). cbv zeta.
    do 2 eexists; (split; [reflexivity|]).
    destruct p; cbn; unfold elapsed; cbn; eauto 10.
Qed.

Lemma reachable_cache_ok (w : World) :
  reachable lower w -> cache_ok (cache w).
Proof.
  induction 1 as [w Hw|w w' Hr IH Hs].
  - rewrite Hw. split; [unfold Map_size, maxCacheSize; simpl; lia|].
    constructor.
  - destruct Hs as [key p w|id w|k v w].
    + destruct (lookup_returns key p w)
        as [r [w' [E [_ [_ [_ [C|[k [v C]]]]]]]]]; rewrite E; cbn;
        rewrite C; [exact IH | now apply addToCache_map_ok].
    + now apply fetchChunk_ok.
    + cbn. now apply addToCache_map_ok.
Qed.

(** C3: the cache never holds more than 10 entries and holds one entry
    for each chunk id cached; inserting into a full cache drops the oldest
    entry and puts the new one last, so that inserting 11 distinct chunk ids
    into an empty cache leaves the last 10 and not the first; a read that
    hits the cache leaves it, order included, as it was. *)
Theorem cache_bounded_fifo :
  (forall w, reachable lower w ->
     Map_size (cache w) <= 10
     /\ NoDup (Map_keys (cache w))
     /\ forall id, Map_has (cacheKey_of id) (cache w) = true ->
                   List.length (entries_for id (cache w)) = 1%nat)
  /\ (forall a b, cacheKey_of a = cacheKey_of b -> a = b)
  /\ (forall w k v,
        Map_has k (cache w) = false ->
        maxCacheSize <= Map_size (cache w) ->
        cache (snd (addToCache k v w)) = tl (cache w) ++ [(k, v)])
  /\ (forall e0 rest w,
        cache w = [] ->
        NoDup (map fst (e0 :: rest)) ->
        List.length rest = 10%nat ->
        cache (snd (insert_all (e0 :: rest) w)) = map entry_of rest
        /\ Map_has (cacheKey_of (fst e0))
                   (cache (snd (insert_all (e0 :: rest) w))) = false)
  /\ (forall w id text,
        Map_get (cacheKey_of id) (cache w) = Some text ->
        fetchChunk id w = (Normal text, w)).
Proof.
  split; [|split; [|split; [|split]]].
  - intros w Hr. destruct (reachable_cache_ok w Hr) as [Hs Hnd].
    split; [exact Hs|]. split; [exact Hnd|].
    intros id Hid. now apply NoDup_one_entry.
  - exact cacheKey_of_inj.
  - intros w k v Hk Hfull. cbn. now apply addToCache_map_full.
  - intros e0 rest w Hw Hnd Hlen.
    assert (cache (snd (insert_all (e0 :: rest) w)) = map entry_of rest)
      as Hc.
    { rewrite insert_all_cache, Hw.
      rewrite fold_addToCache_fifo by now apply NoDup_cacheKeys.
      rewrite length_map. cbn [List.length]. rewrite Hlen. reflexivity. }
    split; [exact Hc|]. rewrite Hc.
    apply not_true_is_false. intros Hin. apply Map_has_keys in Hin.
    unfold Map_keys in Hin. rewrite map_map in Hin.
    apply in_map_iff in Hin. destruct Hin as [e [Heq Hin]].
    cbn in Heq. apply cacheKey_of_inj in Heq.
    inversion Hnd as [|? ? Hnot _]; subst. apply Hnot.
    rewrite <- Heq. now apply in_map.
  - intros w id text. apply fetchChunk_hit.
Qed.

(** C6: for a well-formed key whose chunk is not cached, a response that is
    not ok makes [lookup] return a failure whose error is the fetch failure,
    which is not the key-not-found error, and the cache is what it was: the
    chunk is not entered. *)
Theorem lookup_fetch_failure
  (key : jsstring) (p : bool) (w : World) (m : Meta) (body : text_outcome) :
  validateKey key = true ->
  meta w = Some m ->
  Map_has (cacheKey_of (getChunkId_with m (normalizeKey lower key)))
          (cache w) = false ->
  network w (List.length (fetched w))
          (url_of (getChunkId_with m (normalizeKey lower key)))
  = FetchResponds false body ->
  exists d w',
    lookup lower key p w
    = (Normal
         (failure (js "Failed to fetch chunk "
                     ++ String_of_number
                          (getChunkId_with m (normalizeKey lower key))) d),
       w')
    /\ js "Failed to fetch chunk "
         ++ String_of_number (getChunkId_with m (normalizeKey lower key))
       <> key_not_found_message
    /\ cache w' = cache w
    /\ Map_has (cacheKey_of (getChunkId_with m (normalizeKey lower key)))
               (cache w') = false
    /\ fetched w'
       = fetched w ++ [url_of (getChunkId_with m (normalizeKey lower key))].
Proof.
  intros Hv Hm Hmiss Hnet.
  rewrite (lookup_valid key p w m Hv Hm). cbv zeta.
  set (id := getChunkId_with m (normalizeKey lower key)) in *.
  set (w1 := reported p _ (reported p _ (reported p _ (tick w)))).
  assert (cache w1 = cache w) as Hc1
    by (unfold w1; now rewrite !cache_reported).
  assert (fetched w1 = fetched w) as Hf1
    by (unfold w1; now rewrite !fetched_reported).
  assert (network w1 = network w) as Hn1
    by (unfold w1; now rewrite !network_reported).
  rewrite (fetchChunk_not_ok id w1 body).
  - do 2 eexists. split; [reflexivity|]. cbn. rewrite Hc1, Hf1.
    repeat split; auto. discriminate.
  - rewrite Hc1. rewrite Map_has_get in Hmiss.
    destruct (Map_get (cacheKey_of id) (cache w)); [discriminate|].
    reflexivity.
  - now rewrite Hn1, Hf1.
Qed.

(** C7: every call of [lookup] returns, without throwing, an object that is
    either a success holding the value, the chunk id and the elapsed time,
    or a failure holding the error and the elapsed time; no object holds
    both a value and an error. *)
Theorem lookup_always_structured (key : jsstring) (p : bool) (w : World) :
  exists r w',
    lookup lower key p w = (Normal r, w')
    /\ ((success r = true
         /\ (exists v, value r = Some v) /\ (exists id, chunkId r = Some id)
         /\ error r = None)
        \/ (success r = false
            /\ (exists msg, error r = Some msg)
            /\ value r = None /\ chunkId r = None))
    /\ ~ (value r <> None /\ error r <> None)
    /\ duration r
       = Math_round (double_sub (to_double (clock w (pred (ticks w'))))
                                (to_double (clock w (ticks w)))).
Proof.
  destruct (lookup_returns key p w)
    as [r [w' [E [[[v [id Hr]]|[msg Hr]] [Hd _]]]]];
    exists r, w'; (split; [exact E|]); rewrite Hr; cbn.
  - split; [left; eauto 10|]. split; [tauto|]. rewrite Hr in Hd. exact Hd.
  - split; [right; eauto 10|]. split; [tauto|]. rewrite Hr in Hd. exact Hd.
Qed.

(** What a successful lookup tells about the world it ran in. *)
Lemma lookup_found_inv
  (key : jsstring) (p : bool) (w w1 : World) (v : jsstring) (id : number)
  (d : Z) :
  lookup lower key p w = (Normal (found v id d), w1) ->
  exists m text,
    validateKey key = true
    /\ meta w = Some m
    /\ id = getChunkId_with m (normalizeKey lower key)
    /\ scanChunk text (normalizeKey lower key) = Some v
    /\ Map_get (cacheKey_of id) (cache w1) = Some text
    /\ meta w1 = meta w.
Proof.
  intros H. destruct (validateKey key) eqn:Hv.
  - destruct (meta w) as [m|] eqn:Hm.
    + rewrite (lookup_valid key p w m Hv Hm) in H. cbv zeta in H.
      set (id0 := getChunkId_with m (normalizeKey lower key)) in *.
      set (w1' := reported p _ (reported p _ (reported p _ (tick w)))) in *.
      assert (meta w1' = Some m) as Hm1
        by (unfold w1'; now rewrite !meta_reported).
      pose proof (fetchChunk_frame id0 w1') as F.
      destruct (fetchChunk id0 w1') as [[text|e] w2] eqn:Ef;
        [|discriminate].
      cbn in F. destruct F as [Fm _].
      apply fetchChunk_returns in Ef.
      destruct (scanChunk text (normalizeKey lower key)) as [v'|] eqn:Es;
        [|discriminate].
      unfold found in H. injection H as Hv' Hid Hd Hw. subst v' id w1.
      exists m, text. split; [reflexivity|]. split; [reflexivity|].
      split; [reflexivity|]. split; [exact Es|]. cbn.
      rewrite cache_reported, meta_reported. split; [exact Ef|].
      now rewrite Fm.
    + rewrite (lookup_no_meta key p w Hv Hm) in H. discriminate.
  - rewrite (lookup_invalid key p w Hv) in H. discriminate.
Qed.

(** A lookup whose chunk is cached: no request, the cache untouched. *)
Lemma lookup_cached
  (key : jsstring) (p : bool) (w : World) (m : Meta) (text v : jsstring) :
  validateKey key = true ->
  meta w = Some m ->
  Map_get (cacheKey_of (getChunkId_with m (normalizeKey lower key)))
          (cache w) = Some text ->
  scanChunk text (normalizeKey lower key) = Some v ->
  exists d w',
    lookup lower key p w
    = (Normal (found v (getChunkId_with m (normalizeKey lower key)) d), w')
    /\ fetched w' = fetched w /\ cache w' = cache w.
Proof.
  intros Hv Hm Hc Hs.
  rewrite (lookup_valid key p w m Hv Hm). cbv zeta.
  rewrite (fetchChunk_hit _ _ text) by (now rewrite !cache_reported).
  rewrite Hs. do 2 eexists. split; [reflexivity|].
  cbn. now rewrite !fetched_reported, !cache_reported.
Qed.

(** C8: a successful lookup done again returns the same value, and the
    second call is served from the cache, with no further request, as long
    as the entry of its chunk is still the one the first call left. *)
Theorem lookup_twice_same_value
  (key : jsstring) (p p' : bool) (w w1 : World) (v : jsstring) (id : number)
  (d : Z) :
  lookup lower key p w = (Normal (found v id d), w1) ->
  (exists d' w1',
     lookup lower key p' w1 = (Normal (found v id d'), w1')
     /\ fetched w1' = fetched w1 /\ cache w1' = cache w1)
  /\ (forall w2,
        meta w2 = meta w ->
        Map_get (cacheKey_of id) (cache w2)
        = Map_get (cacheKey_of id) (cache w1) ->
        exists d' w2',
          lookup lower key p' w2 = (Normal (found v id d'), w2')
          /\ fetched w2' = fetched w2 /\ cache w2' = cache w2).
Proof.
  intros H.
  destruct (lookup_found_inv key p w w1 v id d H)
    as [m [text [Hv [Hm [Hid [Hs [Hc Hm1]]]]]]].
  assert (forall w2,
            meta w2 = meta w ->
            Map_get (cacheKey_of id) (cache w2)
            = Map_get (cacheKey_of id) (cache w1) ->
            exists d' w2',
              lookup lower key p' w2 = (Normal (found v id d'), w2')
              /\ fetched w2' = fetched w2 /\ cache w2' = cache w2) as G.
  { intros w2 Hm2 Hc2. subst id.
    apply (lookup_cached key p' w2 m text v); congruence. }
  split; [|exact G]. apply G; auto.
Qed.

(** C9: for a key the validator accepts, [lookup] on the key and on its
    lower-case form normalise to the same key, locate the same chunk and,
    run in the same world, return the same result and leave the same
    world. *)
Theorem lookup_case_insensitive (raw : jsstring) :
  validateKey raw = true ->
  validateKey (toLowerCase lower raw) = true
  /\ normalizeKey lower (toLowerCase lower raw) = normalizeKey lower raw
  /\ (forall m,
        getChunkId_with m (normalizeKey lower (toLowerCase lower raw))
        = getChunkId_with m (normalizeKey lower raw))
  /\ (forall p w,
        lookup lower (toLowerCase lower raw) p w = lookup lower raw p w).
Proof.
  intros Hv. pose proof Hv as Hv0.
  apply validateKey_iff in Hv. destruct Hv as [Hl Hh].
  assert (validateKey (toLowerCase lower raw) = true) as Hv'.
  { rewrite (toLowerCase_hex raw Hh). apply validateKey_iff.
    rewrite length_map. split; [exact Hl | now apply lower_hex_hex]. }
  assert (normalizeKey lower (toLowerCase lower raw)
          = normalizeKey lower raw) as Hn.
  { rewrite (normalizeKey_valid _ Hv'), (normalizeKey_valid _ Hv0).
    rewrite (toLowerCase_hex raw Hh), map_map.
    apply map_ext. exact ascii_lower_idem. }
  split; [exact Hv'|]. split; [exact Hn|]. split.
  - intros m. now rewrite Hn.
  - intros p w. destruct (meta w) as [m|] eqn:Hm.
    + rewrite (lookup_valid _ p w m Hv' Hm), (lookup_valid _ p w m Hv0 Hm).
      now rewrite Hn.
    + now rewrite (lookup_no_meta _ p w Hv' Hm), (lookup_no_meta _ p w Hv0 Hm).
Qed.

(** C10: [lookup] validates the input as given, so a valid key with white
    space before or after it is rejected with the invalid-key error, with no
    request made and nothing reported past validation, although
    [normalizeKey] would have stripped the white space and left a valid
    key. *)
Theorem lookup_rejects_padded_key
  (k ws1 ws2 : jsstring) (p : bool) (w : World) :
  validateKey k = true ->
  forallb isWhiteSpace ws1 = true ->
  forallb isWhiteSpace ws2 = true ->
  ws1 ++ ws2 <> [] ->
  validateKey (ws1 ++ k ++ ws2) = false
  /\ normalizeKey lower (ws1 ++ k ++ ws2) = normalizeKey lower k
  /\ validateKey (normalizeKey lower (ws1 ++ k ++ ws2)) = true
  /\ exists d w',
       lookup lower (ws1 ++ k ++ ws2) p w
       = (Normal (failure invalid_key_message d), w')
       /\ cache w' = cache w
       /\ fetched w' = fetched w
       /\ progress w'
          = progress w ++ (if p then [js "Validating key..."] else []).
Proof.
  intros Hv H1 H2 Hne. pose proof Hv as Hv0.
  pose proof (valid_nonempty k Hv) as Hk.
  apply validateKey_iff in Hv. destruct Hv as [Hl Hh].
  assert (validateKey (ws1 ++ k ++ ws2) = false) as Hbad.
  { apply not_true_is_false. intros Hv'. apply validateKey_iff in Hv'.
    destruct Hv' as [Hl' _]. rewrite !length_app in Hl'.
    destruct ws1, ws2; simpl in *; try congruence; lia. }
  assert (normalizeKey lower (ws1 ++ k ++ ws2) = map ascii_lower k) as Hn.
  { unfold normalizeKey, toLowerCase.
    assert (forall ws, forallb isWhiteSpace ws = true ->
                       forallb plain ws = true) as Hp.
    { intros ws. apply forallb_impl. intros c Hc. unfold plain.
      rewrite Hc. apply orb_true_r. }
    rewrite !forallb_app, (Hp ws1 H1), (Hp ws2 H2),
      (forallb_impl _ _ k hex_plain Hh). cbn.
    rewrite !map_app, (map_lower_ws ws1 H1), (map_lower_ws ws2 H2).
    apply trim_wrapped; auto.
    - destruct k; [congruence | discriminate].
    - now apply lower_hex_hex. }
  split; [exact Hbad|]. split; [|split].
  - now rewrite Hn, (normalizeKey_valid k Hv0).
  - rewrite Hn. apply validateKey_iff. rewrite length_map.
    split; [exact Hl | now apply lower_hex_hex].
  - rewrite (lookup_invalid _ p w Hbad). cbv zeta.
    do 2 eexists. split; [reflexivity|].
    destruct p; cbn; rewrite ?app_nil_r; auto.
Qed.

End Lookup.

(** ** The properties on the sample engines *)

Example fnv1a_32_foobar : fnv1a_32 (js "foobar") = 0xbf9cf968.
Proof. reflexivity. Qed.

Example to_double_tenth :
  to_double (1 # 10) = 3602879701896397 # 36028797018963968.
Proof. vm_compute. reflexivity. Qed.

Example duration_of_doubles :
  Math_round (double_sub (to_double (6 # 10)) (to_double (1 # 10))) = 1
  /\ Math_round (double_sub (to_double (1792 # 10)) (to_double (507 # 10)))
     = 129.
Proof. split; vm_compute; reflexivity. Qed.

Example sample_lookup_duration :
  fst (lookup sample_lower (js "not a key") false
         (initial_world default_meta network_404 sample_clock_tenths))
  = Normal (failure invalid_key_message 129).
Proof. vm_compute. reflexivity. Qed.

Example sample_lookup_found :
  fst (lookup sample_lower sample_key true world_sample)
  = Normal (found (js "a:b") (Int 1314) 1).
Proof. vm_compute. reflexivity. Qed.

Example sample_lookup_requests :
  fetched (snd (lookup sample_lower sample_key true world_sample))
  = [js "chunks/chunk_01314.txt"].
Proof. vm_compute. reflexivity. Qed.

Lemma fnv1a_32_is_reference_witness :
  fnv1a_32 (js "a") = fnv1a_32 (js "a").
Proof.
  exact (proj1 (proj2 fnv1a_32_is_reference) (js "a") (js "a") eq_refl).
Defined.

Lemma getChunkId_range_witness :
  getChunkId sample_key world_sample
  = (Normal (Int (fnv1a_32 sample_key mod 2860 + 1)), world_sample)
  /\ 1 <= fnv1a_32 sample_key mod 2860 + 1 <= 2860.
Proof.
  apply (getChunkId_range world_sample default_meta sample_key).
  - reflexivity.
  - reflexivity.
Defined.

Lemma validateKey_exactly_32_hex_witness :
  (List.length sample_key = 32%nat
   /\ forall c, In c sample_key -> is_hex c = true)
  /\ validateKey (js " 123456789abcdefABCDEF0123456789") = false.
Proof.
  split.
  - apply (proj1 (proj1 (validateKey_exactly_32_hex sample_key))).
    reflexivity.
  - apply (proj2 (validateKey_exactly_32_hex
                    (js " 123456789abcdefABCDEF0123456789"))).
    right. right. right. right. exists 32. split.
    + left. reflexivity.
    + reflexivity.
Defined.

Lemma scanChunk_first_match_witness :
  exists pre post,
    records sample_chunk
    = pre ++ (js "0123456789abcdefabcdef0123456789", js "a:b") :: post
    /\ forall r, In r pre -> fst r <> js "0123456789abcdefabcdef0123456789".
Proof.
  apply (proj1 (proj1 (proj2 (scanChunk_first_match
                                sample_chunk
                                (js "0123456789abcdefabcdef0123456789")))
                      (js "a:b"))).
  reflexivity.
Defined.

Lemma cache_bounded_fifo_witness :
  Map_size (cache (snd (lookup sample_lower sample_key true world_sample)))
  <= 10
  /\ cache (snd (insert_all eleven_chunks world_404))
     = map entry_of (tl eleven_chunks)
  /\ fetchChunk (Int 5) (snd (insert_all eleven_chunks world_404))
     = (Normal (js "text"), snd (insert_all eleven_chunks world_404)).
Proof.
  destruct (cache_bounded_fifo sample_lower) as [P1 [_ [_ [P4 P5]]]].
  split; [|split].
  - apply P1. apply (reachable_step sample_lower world_sample).
    + apply reachable_new. reflexivity.
    + apply step_lookup.
  - apply (P4 (Int 1, js "text") (tl eleven_chunks) world_404).
    + reflexivity.
    + repeat (constructor; [simpl; intuition discriminate|]). constructor.
    + reflexivity.
  - apply P5. reflexivity.
Defined.

Lemma lookup_fetch_failure_witness :
  exists d w',
    lookup sample_lower sample_key true world_404
    = (Normal (failure (js "Failed to fetch chunk 1314") d), w')
    /\ js "Failed to fetch chunk 1314" <> key_not_found_message
    /\ cache w' = []
    /\ Map_has (js "chunk_1314") (cache w') = false
    /\ fetched w' = [js "chunks/chunk_01314.txt"].
Proof.
  apply (lookup_fetch_failure sample_lower sample_key true world_404
           default_meta (TextResolves (js "Not Found")));
    reflexivity.
Defined.

Lemma lookup_twice_same_value_witness :
  exists d' w1',
    lookup sample_lower sample_key false
      (snd (lookup sample_lower sample_key true world_sample))
    = (Normal (found (js "a:b") (Int 1314) d'), w1')
    /\ fetched w1'
       = fetched (snd (lookup sample_lower sample_key true world_sample))
    /\ cache w1'
       = cache (snd (lookup sample_lower sample_key true world_sample)).
Proof.
  apply (proj1 (lookup_twice_same_value sample_lower sample_key true false
                  world_sample
                  (snd (lookup sample_lower sample_key true world_sample))
                  (js "a:b") (Int 1314) 1 eq_refl)).
Defined.

Lemma lookup_case_insensitive_witness :
  validateKey (toLowerCase sample_lower sample_key) = true
  /\ normalizeKey sample_lower (toLowerCase sample_lower sample_key)
     = normalizeKey sample_lower sample_key
  /\ (forall m,
        getChunkId_with m
          (normalizeKey sample_lower (toLowerCase sample_lower sample_key))
        = getChunkId_with m (normalizeKey sample_lower sample_key))
  /\ (forall p w,
        lookup sample_lower (toLowerCase sample_lower sample_key) p w
        = lookup sample_lower sample_key p w).
Proof.
  apply (lookup_case_insensitive sample_lower sample_key). reflexivity.
Defined.

Lemma lookup_rejects_padded_key_witness :
  validateKey ([32] ++ sample_key ++ [10]) = false
  /\ normalizeKey sample_lower ([32] ++ sample_key ++ [10])
     = normalizeKey sample_lower sample_key
  /\ validateKey (normalizeKey sample_lower ([32] ++ sample_key ++ [10]))
     = true
  /\ exists d w',
       lookup sample_lower ([32] ++ sample_key ++ [10]) true world_sample
       = (Normal (failure invalid_key_message d), w')
       /\ cache w' = cache world_sample
       /\ fetched w' = fetched world_sample
       /\ progress w' = progress world_sample ++ [js "Validating key..."].
Proof.
  apply (lookup_rejects_padded_key sample_lower sample_key [32] [10] true
           world_sample).
  - reflexivity.
  - reflexivity.
  - reflexivity.
  - discriminate.
Defined.

(** * Further properties of the code *)

(** ** The hash, resumed *)

(** X1: The hash is an unsigned 32-bit integer, and hashing a concatenation is
    hashing the first part and carrying on, one FNV-1a step for each
    character of the second. *)
Theorem fnv1a_32_resumes (s t : jsstring) :
  0 <= fnv1a_32 s < 2 ^ 32
  /\ fnv1a_32 (s ++ t)
     = fold_left (fun h b => (Z.lxor h b * 0x01000193) mod 2 ^ 32) t
                 (fnv1a_32 s).
Proof.
  split; [apply fnv1a_32_range|].
  unfold fnv1a_32, ushr0. rewrite fold_left_app. apply fnv_fold.
Qed.

(** ** The locator on any chunk count *)

(** X2: [getChunkId] computes with whatever count the descriptor gave: zero
    gives NaN; a negative count [N] gives an id between 1 and [-N], since
    the remainder takes the sign of the hash, which is never negative. *)
Theorem getChunkId_any_count (m : Meta) (key : jsstring) :
  (total_chunks m = 0 -> getChunkId_with m key = NaN)
  /\ (total_chunks m <> 0 ->
      getChunkId_with m key
      = Int (fnv1a_32 key mod Z.abs (total_chunks m) + 1)
      /\ 1 <= fnv1a_32 key mod Z.abs (total_chunks m) + 1
           <= Z.abs (total_chunks m)).
Proof.
  unfold getChunkId_with, js_rem. split.
  - intros ->. reflexivity.
  - intros Hn. destruct (Z.eqb_spec (total_chunks m) 0) as [|_]; [lia|].
    pose proof (fnv1a_32_range key) as Hr. simpl.
    rewrite <- (Z.rem_abs_r (fnv1a_32 key) (total_chunks m) Hn).
    rewrite Z.rem_mod_nonneg by lia. split; [reflexivity|].
    pose proof (Z.mod_pos_bound (fnv1a_32 key) (Z.abs (total_chunks m))).
    lia.
Qed.

(** ** File names *)

Lemma to_uint_no_leading_zero (p : positive) (d : Decimal.uint) :
  Pos.to_uint p <> Decimal.D0 d.
Proof.
  intros E. pose proof (Unsigned.to_of (Pos.to_uint p)) as H.
  rewrite Unsigned.of_to in H. simpl in H. rewrite E in H.
  unfold Decimal.unorm in H. simpl in H.
  destruct (Decimal.nzhead d) eqn:N; try discriminate.
  - injection H as ->. exact (Unsigned.to_uint_nonzero p E).
  - exact (DecimalFacts.nzhead_nonzero d _ N).
Qed.

Lemma String_of_number_head (n : number) :
  exists c r, String_of_number n = c :: r /\ (c = 48 -> r = []).
Proof.
  destruct n as [[|p|p]|].
  - exists 48, []. split; reflexivity.
  - unfold String_of_number. simpl Z.to_int.
    pose proof (Unsigned.to_uint_nonnil p) as Hnil.
    pose proof (to_uint_no_leading_zero p) as Hz.
    destruct (Pos.to_uint p) as [|d|d|d|d|d|d|d|d|d|d];
      [congruence | exfalso; apply (Hz d); reflexivity | ..];
      simpl; eexists; eexists; (split; [reflexivity|]); discriminate.
  - unfold String_of_number. simpl.
    eexists; eexists; (split; [reflexivity|]); discriminate.
  - simpl. eexists; eexists; (split; [reflexivity|]); discriminate.
Qed.

Lemma zeros_app_inj (a b : nat) (s t : jsstring) :
  (exists c r, s = c :: r /\ (c = 48 -> r = [])) ->
  (exists c r, t = c :: r /\ (c = 48 -> r = [])) ->
  repeat 48 a ++ s = repeat 48 b ++ t -> s = t.
Proof.
  intros [c [r [-> Hs]]] [d [q [-> Ht]]].
  revert b; induction a as [|a IH]; intros [|b]; simpl; intros H.
  - exact H.
  - injection H as -> Hr. rewrite (Hs eq_refl) in Hr.
    destruct (repeat 48 b); discriminate.
  - injection H as <- Hr. rewrite (Ht eq_refl) in Hr.
    destruct (repeat 48 a); discriminate.
  - injection H as H. exact (IH b H).
Qed.

(** X3: Distinct chunk ids are asked for under distinct addresses and cached
    under distinct keys: the padding with zeros confuses no two ids. *)
Theorem url_of_injective (a b : number) :
  (url_of a = url_of b -> a = b)
  /\ (cacheKey_of a = cacheKey_of b -> a = b).
Proof.
  split; [|apply cacheKey_of_inj].
  unfold url_of, padStart. intros H.
  apply app_inv_head in H. apply app_inv_head in H.
  apply app_inv_tail in H.
  apply String_of_number_inj.
  exact (zeros_app_inj _ _ _ _ (String_of_number_head a)
           (String_of_number_head b) H).
Qed.

(** ** What a lookup asks of the network and leaves in the cache *)

Section LookupEffects.

Variable lower : jsstring -> jsstring.

#[local] Arguments fetchChunk : simpl never.
#[local] Arguments js : simpl never.
#[local] Arguments report : simpl never.

Lemma clock_reported p s w : clock (reported p s w) = clock w.
Proof. destruct p; reflexivity. Qed.

Lemma fetchChunk_ok_text (id : number) (w : World) (text : jsstring) :
  Map_get (cacheKey_of id) (cache w) = None ->
  network w (List.length (fetched w)) (url_of id)
  = FetchResponds true (TextResolves text) ->
  fetchChunk id w
  = (Normal text,
     set_cache (addToCache_map (cacheKey_of id) text (cache w))
               (log_fetch (url_of id) w)).
Proof.
  intros Hc Hn. unfold fetchChunk, bind, gets, fetch, modify, ret, addToCache.
  rewrite Hc. cbn. rewrite Hn. reflexivity.
Qed.

Lemma fetchChunk_rejected (id : number) (w : World) (message : jsstring) :
  Map_get (cacheKey_of id) (cache w) = None ->
  (network w (List.length (fetched w)) (url_of id) = FetchRejects message
   \/ network w (List.length (fetched w)) (url_of id)
      = FetchResponds true (TextRejects message)) ->
  fetchChunk id w = (Throw (TypeError message), log_fetch (url_of id) w).
Proof.
  intros Hc Hn. unfold fetchChunk, bind, gets, fetch, modify, ret, throw.
  rewrite Hc. cbn. destruct Hn as [-> | ->]; reflexivity.
Qed.

Lemma fetchChunk_requests (id : number) (w : World) :
  fetched (snd (fetchChunk id w))
  = if Map_has (cacheKey_of id) (cache w) then fetched w
    else fetched w ++ [url_of id].
Proof.
  rewrite Map_has_get.
  unfold fetchChunk, bind, gets, fetch, modify, ret, throw, addToCache.
  destruct (Map_get (cacheKey_of id) (cache w)); cbn; [reflexivity|].
  destruct (network w (List.length (fetched w)) (url_of id))
    as [msg|[|] [text|msg]]; reflexivity.
Qed.

Lemma Map_get_none (k : jsstring) (m : Map) :
  Map_has k m = false -> Map_get k m = None.
Proof.
  rewrite Map_has_get. destruct (Map_get k m); [discriminate | reflexivity].
Qed.

(** X4: A lookup makes a request exactly when the key is valid, the descriptor
    is loaded and the chunk of the key is not cached; it then makes one
    request, for the file of that chunk.  It never touches the descriptor,
    the network or the clock. *)
Theorem lookup_requests (key : jsstring) (p : bool) (w : World) :
  let w' := snd (lookup lower key p w) in
  meta w' = meta w /\ network w' = network w /\ clock w' = clock w
  /\ fetched w'
     = match meta w with
       | Some m =>
           let id := getChunkId_with m (normalizeKey lower key) in
           if validateKey key && negb (Map_has (cacheKey_of id) (cache w))
           then fetched w ++ [url_of id]
           else fetched w
       | None => fetched w
       end.
Proof.
  cbv zeta. destruct (validateKey key) eqn:Hv.
  - destruct (meta w) as [m|] eqn:Hm.
    + rewrite (lookup_valid lower key p w m Hv Hm). cbv zeta.
      set (id := getChunkId_with m (normalizeKey lower key)).
      set (w1 := reported p _ (reported p _ (reported p _ (tick w)))).
      pose proof (fetchChunk_frame lower id w1) as F.
      pose proof (fetchChunk_requests id w1) as R.
      assert (cache w1 = cache w /\ fetched w1 = fetched w
              /\ meta w1 = Some m /\ network w1 = network w
              /\ clock w1 = clock w) as [Hc [Hf [Hm1 [Hn Hk]]]].
      { unfold w1. rewrite !cache_reported, !fetched_reported,
          !meta_reported, !network_reported, !clock_reported. cbn. auto. }
      rewrite Hc, Hf in R.
      destruct (fetchChunk id w1) as [[text|e] w2]; cbn in F, R;
        destruct F as [Fm [Fn [Fk _]]];
        [destruct (scanChunk text _)|]; cbn;
        rewrite ?meta_reported, ?network_reported, ?clock_reported,
          ?fetched_reported, Fm, Fn, Fk, R, Hm1, Hn, Hk;
        destruct (Map_has (cacheKey_of id) (cache w)); auto.
    + rewrite (lookup_no_meta lower key p w Hv Hm). cbn.
      rewrite !meta_reported, !network_reported, !clock_reported,
        !fetched_reported. cbn. auto.
  - rewrite (lookup_invalid lower key p w Hv). cbn.
    rewrite !meta_reported, !network_reported, !clock_reported,
      !fetched_reported. cbn. destruct (meta w); auto.
Qed.

(** X5: Before [init] has loaded the descriptor, every lookup fails, with the
    invalid-key error or with the engine's error for reading a property of
    null, and makes no request and leaves the cache alone. *)
Theorem lookup_before_init (key : jsstring) (p : bool) (w : World) :
  meta w = None ->
  exists d w',
    lookup lower key p w
    = (Normal (failure (if validateKey key then null_meta_message
                        else invalid_key_message) d), w')
    /\ cache w' = cache w /\ fetched w' = fetched w.
Proof.
  intros Hm. destruct (validateKey key) eqn:Hv.
  - rewrite (lookup_no_meta lower key p w Hv Hm). cbv zeta.
    do 2 eexists. split; [reflexivity|]. cbn.
    now rewrite !cache_reported, !fetched_reported.
  - rewrite (lookup_invalid lower key p w Hv). cbv zeta.
    do 2 eexists. split; [reflexivity|]. cbn.
    now rewrite !cache_reported, !fetched_reported.
Qed.

(** X6: On a miss answered with the text of the chunk, the chunk is entered in
    the cache whether or not the key is in it: the lookup succeeds with the
    value the scan finds, or fails with the key-not-found error, and in both
    cases the next lookup of that chunk is served from the cache. *)
Theorem lookup_miss_caches_chunk
  (key : jsstring) (p : bool) (w : World) (m : Meta) (text : jsstring) :
  validateKey key = true ->
  meta w = Some m ->
  Map_has (cacheKey_of (getChunkId_with m (normalizeKey lower key)))
          (cache w) = false ->
  network w (List.length (fetched w))
          (url_of (getChunkId_with m (normalizeKey lower key)))
  = FetchResponds true (TextResolves text) ->
  exists d w',
    lookup lower key p w
    = (Normal
         match scanChunk text (normalizeKey lower key) with
         | Some v =>
             found v (getChunkId_with m (normalizeKey lower key)) d
         | None => failure key_not_found_message d
         end, w')
    /\ cache w'
       = addToCache_map
           (cacheKey_of (getChunkId_with m (normalizeKey lower key))) text
           (cache w)
    /\ Map_get (cacheKey_of (getChunkId_with m (normalizeKey lower key)))
               (cache w') = Some text.
Proof.
  intros Hv Hm Hmiss Hnet.
  rewrite (lookup_valid lower key p w m Hv Hm). cbv zeta.
  set (id := getChunkId_with m (normalizeKey lower key)) in *.
  set (w1 := reported p _ (reported p _ (reported p _ (tick w)))).
  assert (cache w1 = cache w /\ fetched w1 = fetched w
          /\ network w1 = network w) as [Hc [Hf Hn]].
  { unfold w1. rewrite !cache_reported, !fetched_reported,
      !network_reported. cbn. auto. }
  rewrite (fetchChunk_ok_text id w1 text).
  - destruct (scanChunk text (normalizeKey lower key));
      do 2 eexists; (split; [reflexivity|]); cbn;
      rewrite ?cache_reported; cbn; rewrite Hc;
      (split; [reflexivity | apply addToCache_map_get]).
  - rewrite Hc. now apply Map_get_none.
  - now rewrite Hn, Hf.
Qed.

(** X7: When the request itself fails, or the body cannot be read, the lookup
    fails with the message of that error and the cache is as it was. *)
Theorem lookup_transport_error
  (key : jsstring) (p : bool) (w : World) (m : Meta) (message : jsstring) :
  validateKey key = true ->
  meta w = Some m ->
  Map_has (cacheKey_of (getChunkId_with m (normalizeKey lower key)))
          (cache w) = false ->
  (network w (List.length (fetched w))
           (url_of (getChunkId_with m (normalizeKey lower key)))
   = FetchRejects message
   \/ network w (List.length (fetched w))
              (url_of (getChunkId_with m (normalizeKey lower key)))
      = FetchResponds true (TextRejects message)) ->
  exists d w',
    lookup lower key p w = (Normal (failure message d), w')
    /\ cache w' = cache w.
Proof.
  intros Hv Hm Hmiss Hnet.
  rewrite (lookup_valid lower key p w m Hv Hm). cbv zeta.
  set (id := getChunkId_with m (normalizeKey lower key)) in *.
  set (w1 := reported p _ (reported p _ (reported p _ (tick w)))).
  assert (cache w1 = cache w /\ fetched w1 = fetched w
          /\ network w1 = network w) as [Hc [Hf Hn]].
  { unfold w1. rewrite !cache_reported, !fetched_reported,
      !network_reported. cbn. auto. }
  rewrite (fetchChunk_rejected id w1 message).
  - do 2 eexists. split; [reflexivity|]. cbn. exact Hc.
  - rewrite Hc. now apply Map_get_none.
  - now rewrite Hn, Hf.
Qed.

(** X8: With a chunk count of zero nothing fails early: the chunk id is NaN,
    the file asked for is [chunks/chunk_00NaN.txt], and when that file is
    missing the lookup fails with the fetch error for chunk NaN. *)
Theorem lookup_zero_chunks
  (key : jsstring) (p : bool) (w : World) (m : Meta) (body : text_outcome) :
  validateKey key = true ->
  meta w = Some m ->
  total_chunks m = 0 ->
  Map_has (js "chunk_NaN") (cache w) = false ->
  network w (List.length (fetched w)) (js "chunks/chunk_00NaN.txt")
  = FetchResponds false body ->
  exists d w',
    lookup lower key p w
    = (Normal (failure (js "Failed to fetch chunk NaN") d), w')
    /\ fetched w' = fetched w ++ [js "chunks/chunk_00NaN.txt"]
    /\ cache w' = cache w.
Proof.
  intros Hv Hm Hz Hmiss Hnet.
  rewrite (lookup_valid lower key p w m Hv Hm). cbv zeta.
  assert (getChunkId_with m (normalizeKey lower key) = NaN) as ->
    by (unfold getChunkId_with, js_rem; now rewrite Hz).
  set (w1 := reported p _ (reported p _ (reported p _ (tick w)))).
  assert (cache w1 = cache w /\ fetched w1 = fetched w
          /\ network w1 = network w) as [Hc [Hf Hn]].
  { unfold w1. rewrite !cache_reported, !fetched_reported,
      !network_reported. cbn. auto. }
  rewrite (fetchChunk_not_ok NaN w1 body).
  - do 2 eexists. split; [reflexivity|]. cbn. now rewrite Hc, Hf.
  - rewrite Hc. now apply Map_get_none.
  - now rewrite Hn, Hf.
Qed.

End LookupEffects.

(** ** The cache under a run of fetches *)

Lemma Map_has_set (k' k v : jsstring) (m : Map) :
  Map_has k' (Map_set k v m) = true -> k' = k \/ Map_has k' m = true.
Proof.
  induction m as [|[k0 v0] m IH]; simpl.
  - rewrite orb_false_r, str_eqb_eq. auto.
  - destruct (str_eqb k0 k) eqn:E; simpl; [auto|].
    rewrite !orb_true_iff. intros [H|H]; [auto|].
    destruct (IH H); auto.
Qed.

Lemma Map_has_tl (k : jsstring) (m : Map) :
  Map_has k (tl m) = true -> Map_has k m = true.
Proof.
  destruct m as [|[k0 v0] m]; simpl; [auto|].
  intros ->. apply orb_true_r.
Qed.

Lemma Map_has_addToCache (k' k v : jsstring) (m : Map) :
  Map_has k' (addToCache_map k v m) = true ->
  k' = k \/ Map_has k' m = true.
Proof.
  rewrite addToCache_map_unfold. intros H.
  apply Map_has_set in H. destruct H as [H|H]; [auto|].
  right. destruct (maxCacheSize <=? Map_size m); [|exact H].
  now apply Map_has_tl.
Qed.

Lemma map_fst_combine {A B} (l : list A) (l' : list B) :
  List.length l = List.length l' -> map fst (combine l l') = l.
Proof.
  revert l'; induction l as [|a l IH]; intros [|b l']; simpl;
    try discriminate; [reflexivity|].
  intros H. injection H as H. now rewrite IH.
Qed.

Lemma NoDup_map_cacheKey (ids : list number) :
  NoDup ids -> NoDup (map cacheKey_of ids).
Proof.
  induction 1 as [|id ids Hnot Hnd IH]; simpl; constructor; [|exact IH].
  intros Hin. apply in_map_iff in Hin. destruct Hin as [id' [Heq Hin]].
  apply cacheKey_of_inj in Heq. congruence.
Qed.

Lemma fetchChunks_all_miss (ids : list number) (w : World) :
  (forall n url, exists text,
      network w n url = FetchResponds true (TextResolves text)) ->
  NoDup ids ->
  (forall id, In id ids -> Map_has (cacheKey_of id) (cache w) = false) ->
  exists texts w',
    fetchChunks ids w = (Normal texts, w')
    /\ List.length texts = List.length ids
    /\ fetched w' = fetched w ++ map url_of ids
    /\ cache w'
       = fold_left (fun c e => addToCache_map (fst e) (snd e) c)
                   (combine (map cacheKey_of ids) texts) (cache w).
Proof.
  revert w; induction ids as [|id rest IH]; intros w Hnet Hnd Hmiss.
  - exists [], w. cbn. rewrite app_nil_r. auto.
  - inversion Hnd as [|? ? Hnot Hnd']; subst.
    destruct (Hnet (List.length (fetched w)) (url_of id)) as [text Htext].
    pose proof (fetchChunk_ok_text id w text
                  (Map_get_none _ _ (Hmiss id (or_introl eq_refl))) Htext)
      as Hf.
    set (w1 := set_cache (addToCache_map (cacheKey_of id) text (cache w))
                         (log_fetch (url_of id) w)) in *.
    destruct (IH w1) as [texts [w' [Hrun [Hlen [Hfetched Hcache]]]]].
    + exact Hnet.
    + exact Hnd'.
    + intros id' Hin. apply not_true_is_false. intros Hhas.
      unfold w1 in Hhas. cbn [cache set_cache] in Hhas.
      apply Map_has_addToCache in Hhas.
      destruct Hhas as [Heq|Hhas].
      * apply cacheKey_of_inj in Heq. congruence.
      * rewrite (Hmiss id') in Hhas by (right; exact Hin). discriminate.
    + exists (text :: texts), w'.
      cbn [fetchChunks]. unfold bind at 1. rewrite Hf.
      unfold bind at 1. rewrite Hrun. cbn.
      split; [reflexivity|]. split; [now rewrite Hlen|].
      split; [|exact Hcache].
      rewrite Hfetched. cbn. now rewrite <- app_assoc.
Qed.

(** X9: Eleven distinct chunks fetched one after the other into an empty cache,
    on a network that serves every file, cost eleven requests and leave the
    last ten cached; fetching the first again costs one more request,
    fetching any of the others costs none. *)
Theorem fetchChunks_evicts_first
  (id0 : number) (rest : list number) (w : World) :
  (forall n url, exists text,
      network w n url = FetchResponds true (TextResolves text)) ->
  cache w = [] ->
  NoDup (id0 :: rest) ->
  List.length rest = 10%nat ->
  exists texts w',
    fetchChunks (id0 :: rest) w = (Normal texts, w')
    /\ fetched w' = fetched w ++ map url_of (id0 :: rest)
    /\ Map_keys (cache w') = map cacheKey_of rest
    /\ fetched (snd (fetchChunk id0 w')) = fetched w' ++ [url_of id0]
    /\ forall id, In id rest -> fetched (snd (fetchChunk id w')) = fetched w'.
Proof.
  intros Hnet Hempty Hnd Hlen.
  destruct (fetchChunks_all_miss (id0 :: rest) w Hnet Hnd)
    as [texts [w' [Hrun [Hl [Hf Hc]]]]].
  { intros id _. now rewrite Hempty. }
  exists texts, w'. split; [exact Hrun|]. split; [exact Hf|].
  assert (Map_keys (cache w') = map cacheKey_of rest) as Hkeys.
  { rewrite Hc, Hempty. rewrite fold_addToCache_fifo.
    - unfold Map_keys. rewrite <- skipn_map.
      rewrite map_fst_combine by (now rewrite length_map).
      rewrite length_combine, length_map, Hl, Nat.min_id.
      cbn [List.length]. rewrite Hlen. reflexivity.
    - unfold Map_keys. rewrite map_fst_combine by (now rewrite length_map).
      now apply NoDup_map_cacheKey. }
  split; [exact Hkeys|]. split.
  - rewrite fetchChunk_requests.
    destruct (Map_has (cacheKey_of id0) (cache w')) eqn:E; [|reflexivity].
    apply Map_has_keys in E. rewrite Hkeys in E.
    apply in_map_iff in E. destruct E as [id [Heq Hin]].
    apply cacheKey_of_inj in Heq. subst id.
    inversion Hnd; contradiction.
  - intros id Hin. rewrite fetchChunk_requests.
    assert (Map_has (cacheKey_of id) (cache w') = true) as ->;
      [|reflexivity].
    apply Map_has_keys. rewrite Hkeys. now apply in_map.
Qed.

Lemma Map_set_old_length (k v : jsstring) (m : Map) :
  Map_has k m = true -> List.length (Map_set k v m) = List.length m.
Proof.
  intros H. rewrite <- (length_map fst (Map_set k v m)).
  fold (Map_keys (Map_set k v m)). rewrite (Map_set_old k v m H).
  unfold Map_keys. apply length_map.
Qed.

(** X10: [addToCache] evicts before it looks at the key.  On a full cache, a
    key that is already cached and is not the oldest has its text replaced
    where it stands while the oldest entry is dropped, so the cache shrinks
    by one; the oldest key itself is dropped and entered again as the
    newest. *)
Theorem addToCache_cached_key (k v : jsstring) (w : World) :
  NoDup (Map_keys (cache w)) ->
  maxCacheSize <= Map_size (cache w) ->
  Map_has k (cache w) = true ->
  let c' := cache (snd (addToCache k v w)) in
  Map_get k c' = Some v
  /\ (Map_first_key (cache w) = Some k -> c' = tl (cache w) ++ [(k, v)])
  /\ (Map_first_key (cache w) <> Some k ->
      Map_size c' = Map_size (cache w) - 1
      /\ Map_keys c' = tl (Map_keys (cache w))).
Proof.
  intros Hnd Hfull Hk. cbn. split; [apply addToCache_map_get|].
  rewrite addToCache_map_unfold.
  destruct (Z.leb_spec maxCacheSize (Map_size (cache w))); [|lia].
  destruct (cache w) as [|[k0 v0] c]; [discriminate|].
  cbn [tl Map_first_key Map_keys map fst] in *.
  inversion Hnd as [|? ? Hnot Hnd']; subst. split.
  - intros Hfirst; injection Hfirst as ->. apply Map_set_new.
    apply not_true_is_false. intros Hin. apply Map_has_keys in Hin.
    contradiction.
  - intros Hne. cbn in Hk.
    destruct (str_eqb k0 k) eqn:E.
    + apply str_eqb_eq in E. congruence.
    + cbn in Hk. fold (Map_keys (Map_set k v c)).
      rewrite (Map_set_old k v c Hk). split; [|reflexivity].
      unfold Map_size. rewrite (Map_set_old_length k v c Hk).
      cbn [List.length]. lia.
Qed.

(** ** The scanner: what it can return, line endings, concatenation *)

Lemma trimStart_decomp (s : jsstring) :
  exists pre, s = pre ++ trimStart s /\ forallb isWhiteSpace pre = true.
Proof.
  induction s as [|c s [pre [Hs Hpre]]]; simpl.
  - exists []. auto.
  - destruct (isWhiteSpace c) eqn:E.
    + exists (c :: pre). simpl. rewrite E, Hpre. split; [congruence | auto].
    + exists []. auto.
Qed.

Lemma trimStart_head (s : jsstring) (c : Z) (r : jsstring) :
  trimStart s = c :: r -> isWhiteSpace c = false.
Proof.
  induction s as [|d s IH]; simpl; [discriminate|].
  destruct (isWhiteSpace d) eqn:E; [exact IH|].
  intros H; injection H as <- _. exact E.
Qed.

Lemma trimStart_clean (k s : jsstring) :
  k <> [] -> (forall c r, k = c :: r -> isWhiteSpace c = false) ->
  trimStart (k ++ s) = k ++ s.
Proof.
  destruct k as [|c k]; [congruence|]. intros _ H. simpl.
  now rewrite (H c k eq_refl).
Qed.

Lemma trim_core (ws1 k ws2 : jsstring) :
  forallb isWhiteSpace ws1 = true ->
  forallb isWhiteSpace ws2 = true ->
  clean_ends k ->
  trim (ws1 ++ k ++ ws2) = k.
Proof.
  intros H1 H2 [Hh Hl]. destruct k as [|c k].
  - apply trim_nil_iff. unfold is_blank. simpl.
    now rewrite forallb_app, H1, H2.
  - unfold trim, trimEnd.
    rewrite (trimStart_ws_app ws1 _ H1).
    rewrite (trimStart_clean (c :: k) ws2) by (congruence || exact Hh).
    rewrite rev_app_distr, trimStart_ws_app by (now rewrite forallb_rev).
    rewrite <- (app_nil_r (rev (c :: k))), trimStart_clean.
    + now rewrite app_nil_r, rev_involutive.
    + intros E. apply (f_equal (@rev Z)) in E.
      rewrite rev_involutive in E. discriminate.
    + exact Hl.
Qed.

Lemma trim_decomp (s : jsstring) :
  exists ws1 ws2,
    s = ws1 ++ trim s ++ ws2
    /\ forallb isWhiteSpace ws1 = true /\ forallb isWhiteSpace ws2 = true
    /\ clean_ends (trim s).
Proof.
  destruct (trimStart_decomp s) as [ws1 [Hs H1]].
  destruct (trimStart_decomp (rev (trimStart s))) as [pre [Hr Hpre]].
  assert (trimStart s = trim s ++ rev pre) as Hu.
  { unfold trim, trimEnd. rewrite <- rev_app_distr, <- Hr.
    now rewrite rev_involutive. }
  exists ws1, (rev pre). split; [now rewrite <- Hu|].
  split; [exact H1|]. split; [now rewrite forallb_rev|]. split.
  - intros c r E. rewrite E in Hu. simpl in Hu.
    exact (trimStart_head s c _ Hu).
  - intros c r E. unfold trim, trimEnd in E. rewrite rev_involutive in E.
    exact (trimStart_head _ c r E).
Qed.

Lemma trim_idem (s : jsstring) : trim (trim s) = trim s.
Proof.
  destruct (trim_decomp s) as [ws1 [ws2 [_ [_ [_ Hc]]]]].
  rewrite <- (app_nil_r (trim s)) at 1.
  now apply (trim_core [] (trim s) []).
Qed.

Lemma trim_app_ws (s ws : jsstring) :
  forallb isWhiteSpace ws = true -> trim (s ++ ws) = trim s.
Proof.
  intros Hws. destruct (trim_decomp s) as [ws1 [ws2 [Hs [H1 [H2 Hc]]]]].
  rewrite Hs at 1. rewrite <- !app_assoc.
  apply trim_core; auto. now rewrite forallb_app, H2, Hws.
Qed.

Lemma In_trim (x : Z) (s : jsstring) : In x (trim s) -> In x s.
Proof.
  destruct (trim_decomp s) as [ws1 [ws2 [Hs _]]]. intros H.
  rewrite Hs, !in_app_iff. auto.
Qed.

Lemma split_not_nil (sep : Z) (s : jsstring) : split sep s <> [].
Proof.
  destruct s as [|c s]; simpl; [discriminate|].
  destruct (c =? sep); [discriminate|].
  destruct (split sep s); discriminate.
Qed.

Lemma split_no_sep (sep : Z) (s line : jsstring) :
  In line (split sep s) -> ~ In sep line.
Proof.
  revert line; induction s as [|c s IH]; simpl; intros line.
  - intros [<-|[]]. auto.
  - destruct (Z.eqb_spec c sep) as [E|E].
    + intros [<-|H]; [auto | now apply IH].
    + destruct (split sep s) as [|l ls] eqn:Es.
      * intros [<-|[]]. intros [H|[]]. congruence.
      * intros [<-|H].
        -- intros [H|H]; [congruence|]. apply (IH l); [now left | exact H].
        -- apply IH. now right.
Qed.

Lemma In_before_colon (x : Z) (line : jsstring) :
  In x (before_colon line) -> In x line /\ x <> 58.
Proof.
  induction line as [|c line IH]; simpl; [tauto|].
  destruct (Z.eqb_spec c 58); simpl; [tauto|].
  intros [<-|H]; [auto|]. destruct (IH H). auto.
Qed.

Lemma In_after_colon (x : Z) (line : jsstring) :
  In x (after_colon line) -> In x line.
Proof.
  induction line as [|c line IH]; simpl; [tauto|].
  destruct (c =? 58); auto.
Qed.

(** X11: What [scanChunk] returns has no white space at either end and no line
    feed, and a target it finds is itself free of surrounding white space,
    of colons and of line feeds: any other target is never found, whatever
    the chunk holds. *)
Theorem scanChunk_found_is_trimmed (content targetKey v : jsstring) :
  scanChunk content targetKey = Some v ->
  (trim v = v /\ ~ In 10 v)
  /\ (trim targetKey = targetKey /\ ~ In 58 targetKey /\ ~ In 10 targetKey).
Proof.
  unfold scanChunk. rewrite scan_lines_spec.
  destruct (find _ _) as [[k v']|] eqn:E; [|discriminate].
  simpl. intros H; injection H as ->.
  apply find_some in E. destruct E as [Hin Hk]. simpl in Hk.
  apply str_eqb_eq in Hk. subst k.
  apply in_map_iff in Hin. destruct Hin as [line [Heq Hline]].
  injection Heq as Ht Hv. apply filter_In in Hline.
  destruct Hline as [Hline _].
  pose proof (split_no_sep 10 content line Hline) as Hnl.
  rewrite <- Ht, <- Hv. repeat split.
  - apply trim_idem.
  - intros H. apply In_trim, In_after_colon in H. contradiction.
  - apply trim_idem.
  - intros H. apply In_trim, In_before_colon in H. destruct H; congruence.
  - intros H. apply In_trim, In_before_colon in H. destruct H; contradiction.
Qed.

Lemma split_app_sep (sep : Z) (a b : jsstring) :
  split sep (a ++ sep :: b) = split sep a ++ split sep b.
Proof.
  induction a as [|c a IH]; simpl.
  - now rewrite Z.eqb_refl.
  - destruct (c =? sep); [now rewrite IH|].
    rewrite IH. pose proof (split_not_nil sep a) as Hne.
    destruct (split sep a); [congruence | reflexivity].
Qed.

Lemma scan_lines_app (l1 l2 : list jsstring) (targetKey : jsstring) :
  scan_lines (l1 ++ l2) targetKey
  = match scan_lines l1 targetKey with
    | Some v => Some v
    | None => scan_lines l2 targetKey
    end.
Proof.
  induction l1 as [|line l1 IH]; [reflexivity|].
  cbn [app scan_lines]. destruct (trim line); [exact IH|].
  cbv zeta. destruct (indexOf 58 line =? -1); [exact IH|].
  destruct (str_eqb _ targetKey); [reflexivity | exact IH].
Qed.

(** X12: Two chunks joined by a line feed are scanned as the first and then,
    when the first holds no record of the key, the second. *)
Theorem scanChunk_concat (c1 c2 targetKey : jsstring) :
  scanChunk (c1 ++ [10] ++ c2) targetKey
  = match scanChunk c1 targetKey with
    | Some v => Some v
    | None => scanChunk c2 targetKey
    end.
Proof.
  unfold scanChunk. simpl app. rewrite split_app_sep. apply scan_lines_app.
Qed.

Lemma split_to_crlf (s : jsstring) :
  split 10 (to_crlf s) = crlf_lines (split 10 s).
Proof.
  induction s as [|c s IH]; [reflexivity|].
  unfold to_crlf in *. cbn [flat_map].
  pose proof (split_not_nil 10 s) as Hne.
  destruct (Z.eqb_spec c 10) as [->|Hc].
  - cbn [app split]. change (13 =? 10) with false.
    change (10 =? 10) with true. cbv iota. rewrite IH.
    destruct (split 10 s) as [|l ls]; [congruence|]. reflexivity.
  - cbn [app split]. apply Z.eqb_neq in Hc. rewrite Hc, IH.
    destruct (split 10 s) as [|l [|l' ls]]; [congruence | reflexivity |].
    reflexivity.
Qed.

Lemma before_colon_app (l x : jsstring) :
  has_colon l = true -> before_colon (l ++ x) = before_colon l.
Proof.
  unfold has_colon. induction l as [|c l IH]; cbn [existsb app before_colon];
    [discriminate|].
  rewrite (Z.eqb_sym 58 c). destruct (c =? 58); [reflexivity|].
  simpl. intros H. now rewrite IH.
Qed.

Lemma after_colon_app (l x : jsstring) :
  has_colon l = true -> after_colon (l ++ x) = after_colon l ++ x.
Proof.
  unfold has_colon. induction l as [|c l IH]; cbn [existsb app after_colon];
    [discriminate|].
  rewrite (Z.eqb_sym 58 c). destruct (c =? 58); [reflexivity|].
  simpl. intros H. now rewrite IH.
Qed.

Lemma records_crlf_lines (lines : list jsstring) :
  map (fun line => (trim (before_colon line), trim (after_colon line)))
      (filter (fun line => negb (is_blank line) && has_colon line)
              (crlf_lines lines))
  = map (fun line => (trim (before_colon line), trim (after_colon line)))
        (filter (fun line => negb (is_blank line) && has_colon line) lines).
Proof.
  induction lines as [|l [|l' ls] IH]; [reflexivity | reflexivity |].
  cbn [crlf_lines filter]. cbn [crlf_lines] in IH.
  assert (is_blank (l ++ [13]) = is_blank l) as ->.
  { unfold is_blank. rewrite forallb_app. simpl. now rewrite andb_true_r. }
  assert (has_colon (l ++ [13]) = has_colon l) as ->.
  { unfold has_colon. rewrite existsb_app. simpl. now rewrite orb_false_r. }
  destruct (negb (is_blank l) && has_colon l) eqn:E; [|exact IH].
  apply andb_true_iff in E. destruct E as [_ Hc].
  cbn [map]. rewrite IH, (before_colon_app l [13] Hc),
    (after_colon_app l [13] Hc), trim_app_ws by reflexivity.
  reflexivity.
Qed.

(** X13: A chunk whose lines end with CR LF is scanned as the same chunk with
    plain line feeds: the carriage returns never reach a key or a value. *)
Theorem scanChunk_crlf (content targetKey : jsstring) :
  scanChunk (to_crlf content) targetKey = scanChunk content targetKey.
Proof.
  unfold scanChunk. rewrite !scan_lines_spec, split_to_crlf.
  now rewrite records_crlf_lines.
Qed.

(** ** The normal form of a key *)

Section NormalForm.

Variable lower : jsstring -> jsstring.

Lemma lower_hex_lower (c : Z) :
  is_hex c = true -> is_lower_hex (ascii_lower c) = true.
Proof.
  unfold is_hex, is_lower_hex, ascii_lower.
  destruct (Z.leb_spec 65 c), (Z.leb_spec c 90); simpl;
    rewrite !orb_true_iff, !andb_true_iff, !Z.leb_le; lia.
Qed.

(** X14: The normal form of a valid key is a valid key in lower case, and is its
    own normal form; two valid keys with the same normal form are one key to
    [lookup]: same result, same world left. *)
Theorem normalizeKey_canonical (k : jsstring) :
  validateKey k = true ->
  validateKey (normalizeKey lower k) = true
  /\ (forall c, In c (normalizeKey lower k) -> is_lower_hex c = true)
  /\ normalizeKey lower (normalizeKey lower k) = normalizeKey lower k
  /\ (forall k' p w,
        validateKey k' = true ->
        normalizeKey lower k' = normalizeKey lower k ->
        lookup lower k' p w = lookup lower k p w).
Proof.
  intros Hv. pose proof Hv as Hv0.
  apply validateKey_iff in Hv. destruct Hv as [Hl Hh].
  rewrite (normalizeKey_valid lower k Hv0).
  assert (validateKey (map ascii_lower k) = true) as Hv'.
  { apply validateKey_iff. rewrite length_map.
    split; [exact Hl | now apply lower_hex_hex]. }
  split; [exact Hv'|]. split; [|split].
  - intros c Hc. apply in_map_iff in Hc. destruct Hc as [d [<- Hd]].
    apply lower_hex_lower. rewrite forallb_forall in Hh. auto.
  - rewrite (normalizeKey_valid lower _ Hv'), map_map.
    apply map_ext. exact ascii_lower_idem.
  - intros k' p w Hk' Hn.
    rewrite <- (normalizeKey_valid lower k Hv0) in Hn.
    destruct (meta w) as [m|] eqn:Hm.
    + rewrite (lookup_valid lower k' p w m Hk' Hm),
        (lookup_valid lower k p w m Hv0 Hm). now rewrite Hn.
    + now rewrite (lookup_no_meta lower k' p w Hk' Hm),
        (lookup_no_meta lower k p w Hv0 Hm).
Qed.

End NormalForm.

(** ** Start-up *)

Section StartupProperties.

Variable JSON_meta : jsstring -> json_meta.

#[local] Arguments js : simpl never.

(** What [loadMetadata] leaves, by the answer of the network and the
    outcome of the parse. *)
Lemma loadMetadata_run (h : HashlyLookup) :
  exists h',
    loadMetadata JSON_meta h = (Normal tt, h')
    /\ initialized h' = initialized h
    /\ cache (engine h') = cache (engine h)
    /\ fetched (engine h') = fetched (engine h) ++ [js "meta.json"]
    /\ match network (engine h) (List.length (fetched (engine h)))
                     (js "meta.json") with
       | FetchResponds true (TextResolves text) =>
           match JSON_meta text with
           | JsonMeta m => meta_foreign h' = false /\ meta (engine h') = Some m
           | JsonOther None => meta_foreign h' = true
           | _ =>
               meta_foreign h' = false
               /\ meta (engine h') = Some default_meta
           end
       | _ => meta_foreign h' = false /\ meta (engine h') = Some default_meta
       end.
Proof.
  unfold loadMetadata, loadMetadata_try, fetch, bind, gets, modify, ret.
  cbn.
  destruct (network (engine h) (List.length (fetched (engine h)))
                    (js "meta.json"))
    as [msg|[|] [text|msg]]; cbn;
    try (eexists; repeat split; reflexivity).
  destruct (JSON_meta text) as [msg| |m|[msg|]]; cbn;
    eexists; repeat split; reflexivity.
Qed.


Lemma init_always_succeeds_aux
  (net : nat -> jsstring -> fetch_outcome) (clk : nat -> Q) :
  (forall text, net O (js "meta.json")
                <> FetchResponds true (TextResolves text)) ->
  exists h',
    init JSON_meta (constructor net clk) = (Normal true, h')
    /\ meta (engine h') = Some default_meta.
Proof.
  intros Hnet.
  destruct (loadMetadata_run (constructor net clk))
    as [h' [Hrun [_ [_ [_ Hm]]]]].
  unfold init. rewrite Hrun. eexists. split; [reflexivity|].
  cbn [engine]. cbn [engine constructor network fetched List.length] in Hm.
  destruct (net O (js "meta.json")) as [msg|[|] [text|msg]] eqn:E;
    try apply Hm.
  exfalso. exact (Hnet text eq_refl).
Qed.

(** X16: When the descriptor cannot be had (the request fails or is answered
    not-ok), a new engine still locates every key after [init], in a chunk
    between 1 and 2860. *)
Theorem init_fallback_locates
  (net : nat -> jsstring -> fetch_outcome) (clk : nat -> Q) (key : jsstring) :
  (forall text, net O (js "meta.json")
                <> FetchResponds true (TextResolves text)) ->
  exists id,
    getChunkId key (engine (snd (init JSON_meta (constructor net clk))))
    = (Normal (Int id), engine (snd (init JSON_meta (constructor net clk))))
    /\ 1 <= id <= 2860.
Proof.
  intros Hnet.
  destruct (init_always_succeeds_aux net clk Hnet) as [h' [Hi Hm]].
  rewrite Hi. cbn [snd].
  exists (fnv1a_32 key mod 2860 + 1).
  unfold getChunkId, bind, gets, ret. rewrite Hm.
  unfold getChunkId_with, js_rem, default_meta. cbn [total_chunks].
  change (2860 =? 0) with false. cbv iota.
  pose proof (fnv1a_32_range key) as Hr.
  rewrite Z.rem_mod_nonneg by lia. cbn [js_add].
  split; [reflexivity|].
  pose proof (Z.mod_pos_bound (fnv1a_32 key) 2860). lia.
Qed.

End StartupProperties.

(** ** The MPHF evaluator *)

Lemma ToInt32_offset (z : Z) : exists k, ToInt32 z = z + k * 2 ^ 32.
Proof.
  exists (- ((z + 2 ^ 31) / 2 ^ 32)). unfold ToInt32.
  rewrite Z.mod_eq by lia. lia.
Qed.

Lemma ToInt32_plus_multiple (z k : Z) : ToInt32 (z + k * 2 ^ 32) = ToInt32 z.
Proof.
  unfold ToInt32.
  replace (z + k * 2 ^ 32 + 2 ^ 31) with (z + 2 ^ 31 + k * 2 ^ 32) by lia.
  now rewrite Z_mod_plus_full.
Qed.

Lemma ToInt32_range (z : Z) : - 2 ^ 31 <= ToInt32 z < 2 ^ 31.
Proof.
  unfold ToInt32.
  pose proof (Z.mod_pos_bound (z + 2 ^ 31) (2 ^ 32)). lia.
Qed.

Lemma simpleHash_step (H c : Z) :
  MPHFEvaluator.bitand
    (MPHFEvaluator.shl5 (ToInt32 H) - ToInt32 H + c)
    (MPHFEvaluator.shl5 (ToInt32 H) - ToInt32 H + c)
  = ToInt32 (31 * H + c).
Proof.
  unfold MPHFEvaluator.bitand, MPHFEvaluator.shl5.
  rewrite Z.land_diag, Z.shiftl_mul_pow2 by lia.
  destruct (ToInt32_offset H) as [k1 E1].
  destruct (ToInt32_offset (ToInt32 H)) as [k2 E2].
  destruct (ToInt32_offset (ToInt32 (ToInt32 H) * 2 ^ 5)) as [k3 E3].
  destruct (ToInt32_offset
              (ToInt32 (ToInt32 (ToInt32 H) * 2 ^ 5) - ToInt32 H + c))
    as [k4 E4].
  rewrite E4, ToInt32_plus_multiple, E3, E2, E1.
  replace ((H + k1 * 2 ^ 32 + k2 * 2 ^ 32) * 2 ^ 5 + k3 * 2 ^ 32
           - (H + k1 * 2 ^ 32) + c)
    with (31 * H + c + (32 * k1 + 32 * k2 + k3 - k1) * 2 ^ 32) by lia.
  apply ToInt32_plus_multiple.
Qed.

Lemma fold_left_commute {A B C} (T : A -> B) (f : B -> C -> B)
  (g : A -> C -> A) :
  (forall a c, f (T a) c = T (g a c)) ->
  forall l a, fold_left f l (T a) = T (fold_left g l a).
Proof.
  intros Hstep l. induction l as [|c l IH]; intros a; [reflexivity|].
  simpl. rewrite Hstep. apply IH.
Qed.

Lemma simpleHash_fold (key : jsstring) (H : Z) :
  fold_left (fun hash char =>
               let hash := (MPHFEvaluator.shl5 hash - hash) + char in
               MPHFEvaluator.bitand hash hash)
            key (ToInt32 H)
  = ToInt32 (fold_left (fun h c => 31 * h + c) key H).
Proof.
  apply (fold_left_commute ToInt32
           (fun hash char =>
              let hash := (MPHFEvaluator.shl5 hash - hash) + char in
              MPHFEvaluator.bitand hash hash)
           (fun h c => 31 * h + c)).
  intros a c. apply simpleHash_step.
Qed.

Lemma simpleHash_poly31 (key : jsstring) :
  MPHFEvaluator.simpleHash key = Z.abs (ToInt32 (MPHFEvaluator.poly31 key)).
Proof.
  unfold MPHFEvaluator.simpleHash, MPHFEvaluator.Math_abs,
    MPHFEvaluator.poly31.
  rewrite <- simpleHash_fold. reflexivity.
Qed.

(** X17: [simpleHash] is the absolute value of the base-31 polynomial of the
    character codes wrapped to a signed 32-bit integer; it lies between 0
    and 2^31, both included. *)
Theorem simpleHash_is_poly31 (key : jsstring) :
  MPHFEvaluator.simpleHash key = Z.abs (ToInt32 (MPHFEvaluator.poly31 key))
  /\ 0 <= MPHFEvaluator.simpleHash key <= 2 ^ 31.
Proof.
  split; [apply simpleHash_poly31|].
  rewrite simpleHash_poly31.
  pose proof (ToInt32_range (MPHFEvaluator.poly31 key)). lia.
Qed.

(** X18: [simpleHash] is not a perfect hash: wherever they stand in two keys
    that agree elsewhere, the pairs Aa and BB give the same hash. *)
Theorem simpleHash_collides (prefix suffix : jsstring) :
  prefix ++ js "Aa" ++ suffix <> prefix ++ js "BB" ++ suffix
  /\ MPHFEvaluator.simpleHash (prefix ++ js "Aa" ++ suffix)
     = MPHFEvaluator.simpleHash (prefix ++ js "BB" ++ suffix).
Proof.
  split.
  - intros H. apply app_inv_head in H. discriminate.
  - rewrite !simpleHash_poly31. do 2 f_equal.
    unfold MPHFEvaluator.poly31.
    change (js "Aa") with [65; 97]. change (js "BB") with [66; 66].
    rewrite !fold_left_app. cbn [fold_left]. f_equal. lia.
Qed.

Section MPHFProperties.

Variable jsvalue : Type.
Variable JSON_parse : jsstring -> option jsvalue.
Variable ToBoolean : jsvalue -> bool.
Variable Get : jsvalue -> jsstring -> jsvalue.

(** X19: [lookup] throws until [load] has run; [load] never fails, whatever the
    request for the debug mapping comes to; after it [lookup] always
    returns, and on a new evaluator for which no mapping could be had it
    returns [simpleHash] of the key. *)
Theorem load_then_lookup
  (e : MPHFEvaluator.t jsvalue) (outcome : fetch_outcome) (key : jsstring) :
  (MPHFEvaluator.loaded e = false ->
   MPHFEvaluator.lookup ToBoolean Get e key
   = Throw (Error (js "MPHF not loaded - call load() first")))
  /\ fst (MPHFEvaluator.load JSON_parse outcome e) = true
  /\ MPHFEvaluator.loaded (snd (MPHFEvaluator.load JSON_parse outcome e))
     = true
  /\ (exists i,
        MPHFEvaluator.lookup ToBoolean Get
          (snd (MPHFEvaluator.load JSON_parse outcome e)) key
        = Normal i)
  /\ ((forall text, outcome = FetchResponds true (TextResolves text) ->
                    JSON_parse text = None) ->
      MPHFEvaluator.lookup ToBoolean Get
        (snd (MPHFEvaluator.load JSON_parse outcome
                (MPHFEvaluator.constructor jsvalue))) key
      = Normal (MPHFEvaluator.FromHash (MPHFEvaluator.simpleHash key))).
Proof.
  split; [|split; [|split; [|split]]].
  - intros Hl. unfold MPHFEvaluator.lookup. now rewrite Hl.
  - unfold MPHFEvaluator.load.
    destruct outcome as [msg|[|] [text|msg]]; try reflexivity.
    destruct (JSON_parse text); reflexivity.
  - unfold MPHFEvaluator.load.
    destruct outcome as [msg|[|] [text|msg]]; try reflexivity.
    destruct (JSON_parse text); reflexivity.
  - unfold MPHFEvaluator.lookup.
    assert (MPHFEvaluator.loaded
              (snd (MPHFEvaluator.load JSON_parse outcome e)) = true) as ->.
    { unfold MPHFEvaluator.load.
      destruct outcome as [msg|[|] [text|msg]]; try reflexivity.
      destruct (JSON_parse text); reflexivity. }
    cbn [negb].
    destruct (MPHFEvaluator.lookupTable _) as [table|]; [|eauto].
    destruct (MPHFEvaluator.debugMode _ && ToBoolean table); eauto.
  - intros Hnone. unfold MPHFEvaluator.load, MPHFEvaluator.lookup.
    destruct outcome as [msg|[|] [text|msg]]; try reflexivity.
    rewrite (Hnone text eq_refl). reflexivity.
Qed.

End MPHFProperties.

(** ** The page *)

Section PageProperties.

Variable lower : jsstring -> jsstring.

#[local] Arguments js : simpl never.
#[local] Arguments lookup : simpl never.
#[local] Arguments trim : simpl never.
#[local] Arguments stats_html : simpl never.
#[local] Arguments String_of_number : simpl never.

Lemma last_cons_default {A} (a : A) (l : list A) (d : A) :
  last (a :: l) d = last l a.
Proof.
  revert a d; induction l as [|b l IH]; intros a d; [reflexivity|].
  change (last (a :: b :: l) d) with (last (b :: l) d).
  now rewrite (IH b d), (IH b a).
Qed.

Lemma steps_fold (steps : list jsstring) (ui : UIController) :
  fold_left (fun ui step => updateLoadingStep step ui) steps ui
  = updateLoadingStep (last steps (loadingSteps_text ui)) ui.
Proof.
  revert ui; induction steps as [|s steps IH]; intros ui.
  - destruct ui; reflexivity.
  - cbn [fold_left]. rewrite IH, (last_cons_default s steps).
    destruct ui; reflexivity.
Qed.

(** [handleSearch] reads the input only through [trim] and never writes
    it. *)
Lemma handleSearch_input (v1 v2 : jsstring) (ui : UIController) (w : World) :
  trim v1 = trim v2 ->
  handleSearch lower (set_input v1 ui) w
  = (set_input v1 (fst (handleSearch lower (set_input v2 ui) w)),
     snd (handleSearch lower (set_input v2 ui) w)).
Proof.
  intros Ht. unfold handleSearch.
  cbn [isSearching searchInput_value set_input]. rewrite Ht.
  destruct (isSearching ui) eqn:Hs.
  - destruct ui; cbn in *; subst; reflexivity.
  - destruct (trim v2) as [|c key]; [destruct ui; reflexivity|].
    destruct (lookup lower (c :: key) true w) as [[r|e] w'].
    + unfold steps_shown. rewrite !steps_fold.
      destruct (success r).
      * unfold showResult. destruct (mphfIndex r); destruct ui; reflexivity.
      * destruct ui; reflexivity.
    + unfold steps_shown. rewrite !steps_fold. destruct ui; reflexivity.
Qed.

(** X20: A search leaves the guard as it found it and the input as typed.  It
    does nothing at all while another search is under way, and asks nothing
    of the engine when the input is blank. *)
Theorem handleSearch_guard (ui : UIController) (w : World) :
  isSearching (fst (handleSearch lower ui w)) = isSearching ui
  /\ searchInput_value (fst (handleSearch lower ui w)) = searchInput_value ui
  /\ (isSearching ui = true -> handleSearch lower ui w = (ui, w))
  /\ (is_blank (searchInput_value ui) = true ->
      snd (handleSearch lower ui w) = w).
Proof.
  unfold handleSearch. destruct (isSearching ui) eqn:Hs.
  - cbn. repeat split; auto.
  - destruct (trim (searchInput_value ui)) as [|c key] eqn:Ht.
    + cbn. repeat split; auto. discriminate.
    + assert (is_blank (searchInput_value ui) = false) as Hb.
      { apply not_true_is_false. intros Hb. apply trim_nil_iff in Hb.
        congruence. }
      destruct (lookup lower (c :: key) true w) as [[r|e] w'].
      * unfold steps_shown. rewrite steps_fold.
        destruct (success r).
        -- unfold showResult. destruct (mphfIndex r); cbn;
             repeat split; auto; try discriminate; congruence.
        -- cbn. repeat split; auto; try discriminate; congruence.
      * unfold steps_shown. rewrite steps_fold. cbn.
        repeat split; auto; try discriminate; congruence.
Qed.

(** X21: A search that runs ends with what [lookup] returned on the trimmed
    input: the loading element hidden and the button enabled again, and
    either the value shown and the error hidden, or the error of the lookup
    shown and the result hidden. *)
Theorem handleSearch_shows_outcome (ui : UIController) (w : World) :
  isSearching ui = false ->
  is_blank (searchInput_value ui) = false ->
  exists r,
    lookup lower (trim (searchInput_value ui)) true w
    = (Normal r, snd (handleSearch lower ui w))
    /\ loadingContainer_hidden (fst (handleSearch lower ui w)) = true
    /\ searchButton_disabled (fst (handleSearch lower ui w)) = false
    /\ (if success r
        then resultValue_text (fst (handleSearch lower ui w))
             = text_of (value r)
             /\ resultContainer_hidden (fst (handleSearch lower ui w)) = false
             /\ errorContainer_hidden (fst (handleSearch lower ui w)) = true
        else errorMessage_text (fst (handleSearch lower ui w))
             = text_of (error r)
             /\ resultContainer_hidden (fst (handleSearch lower ui w)) = true
             /\ errorContainer_hidden (fst (handleSearch lower ui w))
                = false).
Proof.
  intros Hs Hb. unfold handleSearch. rewrite Hs.
  destruct (trim (searchInput_value ui)) as [|c key] eqn:Ht.
  - apply trim_nil_iff in Ht. congruence.
  - destruct (lookup_returns lower (c :: key) true w)
      as [r [w' [E [Hshape _]]]].
    rewrite E. exists r. unfold steps_shown. rewrite steps_fold.
    destruct Hshape as [[v [id Hr]]|[msg Hr]].
    + destruct r as [s rv re d rc rm]. unfold found in Hr.
      injection Hr; intros; subst. cbn. repeat split; reflexivity.
    + destruct r as [s rv re d rc rm]. unfold failure in Hr.
      injection Hr; intros; subst. cbn. repeat split; reflexivity.
Qed.

(** X22: The page trims what is typed before it looks it up, the indicator does
    not: a valid key typed with white space around it is marked invalid by
    [validateInput], yet the search looks up the key itself and ends as it
    would for the key typed bare. *)
Theorem handleSearch_trims_input
  (k ws1 ws2 : jsstring) (ui : UIController) (w : World) :
  validateKey k = true ->
  forallb isWhiteSpace ws1 = true ->
  forallb isWhiteSpace ws2 = true ->
  ws1 ++ ws2 <> [] ->
  isSearching ui = false ->
  inputIndicator_className (validateInput (ws1 ++ k ++ ws2) ui)
  = js "input-indicator invalid"
  /\ inputIndicator_className (validateInput k ui)
     = js "input-indicator valid"
  /\ handleSearch lower (set_input (ws1 ++ k ++ ws2) ui) w
     = (set_input (ws1 ++ k ++ ws2)
          (fst (handleSearch lower (set_input k ui) w)),
        snd (lookup lower k true w)).
Proof.
  intros Hv H1 H2 Hne Hs.
  pose proof (valid_nonempty k Hv) as Hk.
  pose proof Hv as Hv0. apply validateKey_iff in Hv0.
  destruct Hv0 as [Hl Hh].
  assert (trim (ws1 ++ k ++ ws2) = k) as Ht by (now apply trim_wrapped).
  assert (trim k = k) as Htk.
  { rewrite <- (app_nil_r k) at 1. now apply (trim_wrapped [] k []). }
  split; [|split].
  - unfold validateInput. cbn [inputIndicator_className].
    assert (hexPattern_test (ws1 ++ k ++ ws2) = false) as ->.
    { apply not_true_is_false. intros Hp.
      apply (proj1 (validateKey_iff _)) in Hp. destruct Hp as [Hl' _].
      rewrite !length_app in Hl'.
      destruct ws1, ws2; cbn [List.length app] in *; try congruence; lia. }
    destruct (Nat.eqb_spec (List.length (ws1 ++ k ++ ws2)) 0) as [E|_];
      [|reflexivity].
    rewrite !length_app in E. lia.
  - unfold validateInput. cbn [inputIndicator_className].
    unfold validateKey in Hv. rewrite Hv, Hl. reflexivity.
  - rewrite (handleSearch_input (ws1 ++ k ++ ws2) k ui w)
      by (now rewrite Ht, Htk).
    f_equal. unfold handleSearch.
    cbn [isSearching searchInput_value set_input]. rewrite Hs, Htk.
    destruct k as [|c k]; [congruence|].
    destruct (lookup lower (c :: k) true w) as [[r|e] w']; reflexivity.
Qed.

End PageProperties.

(** ** The further properties on the sample engines *)

Lemma getChunkId_any_count_witness :
  getChunkId_with {| total_chunks := 0; total_keys := 0 |} sample_key = NaN
  /\ 1 <= fnv1a_32 sample_key mod Z.abs (-7) + 1 <= Z.abs (-7).
Proof.
  split.
  - apply (proj1 (getChunkId_any_count
                    {| total_chunks := 0; total_keys := 0 |} sample_key)).
    reflexivity.
  - apply (proj2 (getChunkId_any_count
                    {| total_chunks := -7; total_keys := 0 |} sample_key)).
    discriminate.
Defined.

Lemma url_of_injective_witness : Int 7 = Int 7.
Proof.
  apply (proj1 (url_of_injective (Int 7) (Int 7))). reflexivity.
Defined.

Lemma lookup_before_init_witness :
  exists d w',
    lookup sample_lower sample_key true world_new
    = (Normal (failure null_meta_message d), w')
    /\ cache w' = cache world_new /\ fetched w' = fetched world_new.
Proof.
  apply (lookup_before_init sample_lower sample_key true world_new).
  reflexivity.
Defined.

Lemma lookup_miss_caches_chunk_witness :
  exists d w',
    lookup sample_lower (js "00000000000000000000000000000000") true
           world_sample
    = (Normal (failure key_not_found_message d), w')
    /\ cache w'
       = addToCache_map (js "chunk_510") sample_chunk []
    /\ Map_get (js "chunk_510") (cache w') = Some sample_chunk.
Proof.
  destruct (lookup_miss_caches_chunk sample_lower
              (js "00000000000000000000000000000000") true world_sample
              default_meta sample_chunk eq_refl eq_refl eq_refl eq_refl)
    as [d [w' [Hrun [Hcache Hget]]]].
  exists d, w'. split; [exact Hrun|]. split; [exact Hcache | exact Hget].
Defined.

Lemma lookup_transport_error_witness :
  exists d w',
    lookup sample_lower sample_key true world_down
    = (Normal (failure (js "Failed to fetch") d), w')
    /\ cache w' = cache world_down.
Proof.
  apply (lookup_transport_error sample_lower sample_key true world_down
           default_meta (js "Failed to fetch"));
    try reflexivity.
  left. reflexivity.
Defined.

Lemma lookup_zero_chunks_witness :
  exists d w',
    lookup sample_lower sample_key true world_zero
    = (Normal (failure (js "Failed to fetch chunk NaN") d), w')
    /\ fetched w' = fetched world_zero ++ [js "chunks/chunk_00NaN.txt"]
    /\ cache w' = cache world_zero.
Proof.
  apply (lookup_zero_chunks sample_lower sample_key true world_zero
           {| total_chunks := 0; total_keys := 0 |}
           (TextResolves (js "Not Found"))); reflexivity.
Defined.

Lemma fetchChunks_evicts_first_witness :
  exists texts w',
    fetchChunks (map fst eleven_chunks) world_sample = (Normal texts, w')
    /\ fetched w'
       = fetched world_sample ++ map url_of (map fst eleven_chunks)
    /\ Map_keys (cache w') = map cacheKey_of (tl (map fst eleven_chunks))
    /\ fetched (snd (fetchChunk (Int 1) w')) = fetched w' ++ [url_of (Int 1)]
    /\ forall id, In id (tl (map fst eleven_chunks)) ->
                  fetched (snd (fetchChunk id w')) = fetched w'.
Proof.
  apply (fetchChunks_evicts_first (Int 1) (tl (map fst eleven_chunks))
           world_sample).
  - intros n url. exists sample_chunk. reflexivity.
  - reflexivity.
  - repeat (constructor; [simpl; intuition discriminate|]). constructor.
  - reflexivity.
Defined.

Lemma addToCache_cached_key_witness :
  Map_get (js "chunk_5")
          (cache (snd (addToCache (js "chunk_5") (js "new") world_full)))
  = Some (js "new")
  /\ Map_size (cache (snd (addToCache (js "chunk_5") (js "new") world_full)))
     = Map_size (cache world_full) - 1.
Proof.
  destruct (addToCache_cached_key (js "chunk_5") (js "new") world_full)
    as [Hget [_ Hshrink]].
  - vm_compute.
    repeat (constructor; [simpl; intuition discriminate|]). constructor.
  - vm_compute. discriminate.
  - reflexivity.
  - split; [exact Hget|]. apply Hshrink.
    intros H. vm_compute in H. congruence.
Defined.

Lemma scanChunk_found_is_trimmed_witness :
  (trim (js "a:b") = js "a:b" /\ ~ In 10 (js "a:b"))
  /\ (trim (js "0123456789abcdefabcdef0123456789")
      = js "0123456789abcdefabcdef0123456789"
      /\ ~ In 58 (js "0123456789abcdefabcdef0123456789")
      /\ ~ In 10 (js "0123456789abcdefabcdef0123456789")).
Proof.
  apply (scanChunk_found_is_trimmed sample_chunk
           (js "0123456789abcdefabcdef0123456789") (js "a:b")).
  reflexivity.
Defined.

Lemma normalizeKey_canonical_witness :
  validateKey (normalizeKey sample_lower sample_key) = true
  /\ normalizeKey sample_lower (normalizeKey sample_lower sample_key)
     = normalizeKey sample_lower sample_key.
Proof.
  destruct (normalizeKey_canonical sample_lower sample_key eq_refl)
    as [Hv [_ [Hi _]]].
  split; [exact Hv | exact Hi].
Defined.


Lemma init_fallback_locates_witness :
  exists id,
    getChunkId sample_key
      (engine (snd (init sample_JSON_meta
                      (constructor network_404 sample_clock))))
    = (Normal (Int id),
       engine (snd (init sample_JSON_meta
                      (constructor network_404 sample_clock))))
    /\ 1 <= id <= 2860.
Proof.
  apply (init_fallback_locates sample_JSON_meta network_404 sample_clock
           sample_key).
  intros text. discriminate.
Defined.

Lemma load_then_lookup_witness :
  MPHFEvaluator.lookup (fun _ : Z => true) (fun v _ => v)
    (MPHFEvaluator.constructor Z) sample_key
  = Throw (Error (js "MPHF not loaded - call load() first"))
  /\ MPHFEvaluator.lookup (fun _ : Z => true) (fun v _ => v)
       (snd (MPHFEvaluator.load (fun _ => None)
               (FetchResponds false (TextResolves (js "Not Found")))
               (MPHFEvaluator.constructor Z))) sample_key
     = Normal (MPHFEvaluator.FromHash (MPHFEvaluator.simpleHash sample_key)).
Proof.
  destruct (load_then_lookup Z (fun _ => None) (fun _ => true) (fun v _ => v)
              (MPHFEvaluator.constructor Z)
              (FetchResponds false (TextResolves (js "Not Found")))
              sample_key)
    as [Hbefore [_ [_ [_ Hdemo]]]].
  split.
  - apply Hbefore. reflexivity.
  - apply Hdemo. intros text H. discriminate.
Defined.

Lemma handleSearch_guard_witness :
  handleSearch sample_lower (set_isSearching true (sample_page sample_key))
               world_sample
  = (set_isSearching true (sample_page sample_key), world_sample)
  /\ snd (handleSearch sample_lower (sample_page (js "  ")) world_sample)
     = world_sample.
Proof.
  split.
  - apply (proj1 (proj2 (proj2 (handleSearch_guard sample_lower
             (set_isSearching true (sample_page sample_key)) world_sample)))).
    reflexivity.
  - apply (proj2 (proj2 (proj2 (handleSearch_guard sample_lower
             (sample_page (js "  ")) world_sample)))).
    reflexivity.
Defined.

Lemma handleSearch_shows_outcome_witness :
  resultValue_text
    (fst (handleSearch sample_lower (sample_page sample_key) world_sample))
  = js "a:b".
Proof.
  destruct (handleSearch_shows_outcome sample_lower (sample_page sample_key)
              world_sample eq_refl eq_refl)
    as [r [Hr [_ [_ Hshown]]]].
  assert (r = found (js "a:b") (Int 1314) 1) as ->.
  { pose proof (f_equal fst Hr) as E.
    vm_compute in E. injection E as <-. reflexivity. }
  exact (proj1 Hshown).
Defined.

Lemma handleSearch_trims_input_witness :
  inputIndicator_className
    (validateInput ([32] ++ sample_key ++ [10]) (sample_page []))
  = js "input-indicator invalid"
  /\ snd (handleSearch sample_lower
            (set_input ([32] ++ sample_key ++ [10]) (sample_page []))
            world_sample)
     = snd (lookup sample_lower sample_key true world_sample).
Proof.
  destruct (handleSearch_trims_input sample_lower sample_key [32] [10]
              (sample_page []) world_sample)
    as [Hmark [_ Hrun]]; try reflexivity.
  - discriminate.
  - split; [exact Hmark|]. now rewrite Hrun.
Defined.
